(** * Reconnection engine and supervisor of [autobahn.twisted.component]

    A shallow embedding of [src/autobahn/twisted/component.py]: the
    transport factories and endpoints built for one connection attempt,
    the re-connect loop of [Component.start], and the supervisor [_run].

    Python exceptions are values of [Exn]; a computation that may raise
    returns [Res A].  Mutable transport objects live in one list that
    the loop reads and writes by position, so that the round-robin
    iterator and [self._transports] see the same objects. *)

From Stdlib Require Import ZArith.
From stdpp Require Import base strings list gmap.

Local Open Scope string_scope.
Local Open Scope list_scope.

(** ** Exceptions and results *)

Inductive Exn : Type :=
| ApplicationError (error : string)
| SSL_Error (queue : list (string * string * string))
| RuntimeError (msg : string)
| ValueError (msg : string)
| KeyError (key : string)
| TypeError (msg : string)
| NameError (name : string)
| AssertionError (msg : string)
| StopIteration
| OtherException (name : string)
| NonException (name : string).

(** [NonException] stands for the classes below [BaseException] that
    are not below [Exception] ([KeyboardInterrupt], [SystemExit], ...):
    an [except Exception] clause does not catch them.  [SSL_Error] is
    an [OpenSSL.SSL.Error] raised directly, whose [args[0]] is the
    error queue, a list of triples; its subclasses with other
    arguments are not represented. *)
Definition is_Exception (e : Exn) : bool :=
  match e with
  | NonException _ => false
  | _ => true
  end.

Definition is_ApplicationError (e : Exn) : bool :=
  match e with
  | ApplicationError _ => true
  | _ => false
  end.

Inductive Res (A : Type) : Type :=
| Ret (a : A)
| Raise (e : Exn).
Arguments Ret {A} a.
Arguments Raise {A} e.

#[global] Instance Res_ret : MRet Res := fun _ a => Ret a.
#[global] Instance Res_bind : MBind Res := fun _ _ k m =>
  match m with
  | Ret a => k a
  | Raise e => Raise e
  end.

(** [d[key]] on a dict whose key may be absent. *)
Definition getitem {A : Type} (key : string) (o : option A) : Res A :=
  match o with
  | Some a => Ret a
  | None => Raise (KeyError key)
  end.

(** ** What the interpreter could import

    The module probes its environment with [try: import ...]; the
    outcome of each probe is a field here. *)
Record Platform : Type := {
  _TLS : bool;
  has_MsgPackSerializer : bool;
  has_JsonSerializer : bool;
  has_TCP6ClientEndpoint : bool
}.

(** ** Transport configuration *)

Inductive TlsValue : Type :=
| TlsNone
| TlsBool (b : bool)
| TlsDict (nonempty : bool)
| TlsConnectionCreator
| TlsCertificateOptions
| TlsOther (truthy : bool).

(** Python truthiness of the ["tls"] entry. *)
Definition truthy (tls : TlsValue) : bool :=
  match tls with
  | TlsNone => false
  | TlsBool b => b
  | TlsDict nonempty => nonempty
  | TlsConnectionCreator => true
  | TlsCertificateOptions => true
  | TlsOther t => t
  end.

(** The endpoint dict.  An absent key is [None].  The entries
    ["version"], ["port"] and ["timeout"] are integers and ["host"] is
    a string, so that the conversions [int(...)] and [str(...)] of the
    source return them as they are; other values of these entries,
    which [int] may refuse with a [ValueError] or a [TypeError], are
    outside this type. *)
Record EndpointDict : Type := {
  ep_type : option string;
  ep_version : option Z;
  ep_host : option string;
  ep_port : option Z;
  ep_timeout : option Z;
  ep_tls : option TlsValue;
  ep_path : option string
}.

Inductive EndpointConfig : Type :=
| EpProvider (name : string)
| EpDict (d : EndpointDict)
| EpOther (type_name : string).

Record TransportConfig : Type := {
  tc_type : option string;
  tc_url : option string;
  tc_serializers : option (list string);
  tc_serializer : option string;
  tc_endpoint : option EndpointConfig
}.

(** ** Objects built for one connection attempt *)

Inductive Serializer : Type :=
| MsgPackSerializer (batched : bool)
| JsonSerializer (batched : bool).

Inductive Factory : Type :=
| WampWebSocketClientFactory (url : string) (serializers : list Serializer)
| WampRawSocketClientFactory (serializer : Serializer).

Inductive TlsContext : Type :=
| ContextOfCreator
| ContextOfCertificateOptions
| optionsForClientTLS (host : string).

Inductive Endpoint : Type :=
| ProvidedEndpoint (name : string)
| SSL4ClientEndpoint (host : string) (port : Z) (context : TlsContext) (timeout : Z)
| TCP4ClientEndpoint (host : string) (port : Z) (timeout : Z)
| TCP6ClientEndpoint (host : string) (port : Z) (timeout : Z)
| UNIXClientEndpoint (path : string) (timeout : Z).

Section Construction.

Variable P : Platform.

Definition _is_ssl_error (e : Exn) : bool :=
  if _TLS P then
    match e with
    | SSL_Error _ => true
    | _ => false
    end
  else false.

(** [seen] is the set the comprehension fills while it runs. *)
Fixpoint _unique_list_from (seen : gset string) (seq : list string) : list string :=
  match seq with
  | [] => []
  | x :: rest =>
      if decide (x ∈ seen) then _unique_list_from seen rest
      else x :: _unique_list_from ({[ x ]} ∪ seen) rest
  end.

Definition _unique_list (seq : list string) : list string :=
  _unique_list_from ∅ seq.

Definition dquote : string := String (Ascii.ascii_of_nat 34) EmptyString.

Definition could_not_create (serializer_id : string) : Exn :=
  RuntimeError ("could not create serializer for " ++ dquote ++ serializer_id ++ dquote).

Definition _create_transport_serializer (serializer_id : string) : Res Serializer :=
  if bool_decide (serializer_id ∈ ["msgpack"; "mgspack.batched"]) && has_MsgPackSerializer P then
    if bool_decide (serializer_id = "mgspack.batched")
    then Ret (MsgPackSerializer true)
    else Ret (MsgPackSerializer false)
  else if bool_decide (serializer_id ∈ ["json"; "json.batched"]) && has_JsonSerializer P then
    if bool_decide (serializer_id = "json.batched")
    then Ret (JsonSerializer true)
    else Ret (JsonSerializer false)
  else Raise (could_not_create serializer_id).

Definition unknown_serializer (serializer_id : string) : Exn :=
  RuntimeError ("Unknown serializer '" ++ serializer_id ++ "'").

(** The [for] loop of [_create_transport_serializers]; [serializers]
    is the list built so far. *)
Fixpoint append_serializers (serializer_ids : list string) (serializers : list Serializer)
  : Res (list Serializer) :=
  match serializer_ids with
  | [] => Ret serializers
  | serializer_id :: rest =>
      if bool_decide (serializer_id = "msgpack") then
        append_serializers rest
          (if has_MsgPackSerializer P
           then serializers ++ [MsgPackSerializer true; MsgPackSerializer false]
           else serializers)
      else if bool_decide (serializer_id = "json") then
        append_serializers rest
          (if has_JsonSerializer P
           then serializers ++ [JsonSerializer true; JsonSerializer false]
           else serializers)
      else Raise (unknown_serializer serializer_id)
  end.

Definition _create_transport_serializers (transport_config : TransportConfig)
  : Res (list Serializer) :=
  let serializer_ids :=
    match tc_serializers transport_config with
    | Some ids => _unique_list ids
    | None => ["msgpack"; "json"]
    end in
  append_serializers serializer_ids [].

Definition should_not_arrive_here : Exn := AssertionError "should not arrive here".

Definition _create_transport_factory (transport_config : TransportConfig) : Res Factory :=
  ty ← getitem "type" (tc_type transport_config);
  if bool_decide (ty = "websocket") then
    serializers ← _create_transport_serializers transport_config;
    url ← getitem "url" (tc_url transport_config);
    Ret (WampWebSocketClientFactory url serializers)
  else if bool_decide (ty = "rawsocket") then
    serializer ← _create_transport_serializer (default "json" (tc_serializer transport_config));
    Ret (WampRawSocketClientFactory serializer)
  else Raise should_not_arrive_here.

Definition tls_not_installed : Exn :=
  RuntimeError "TLS configured in transport, but TLS support is not installed (eg OpenSSL?)".
(** The source formats [type(tls)] into this message; the embedding
    keeps the fixed part of the text. *)
Definition tls_unknown_type : Exn :=
  RuntimeError ("unknown type for " ++ dquote ++ "tls" ++ dquote ++ " configuration in transport").
Definition tls_on_ipv6 : Exn := RuntimeError "TLS on IPv6 not implemented".
Definition ipv6_not_supported : Exn :=
  RuntimeError "IPv6 is not supported (please upgrade Twisted)".

(** The [if tls:] branch up to the choice of [context]. *)
Definition tls_context (tls : TlsValue) (host : string) : Res TlsContext :=
  if negb (_TLS P) then Raise tls_not_installed
  else match tls with
       | TlsConnectionCreator => Ret ContextOfCreator
       | TlsCertificateOptions => Ret ContextOfCertificateOptions
       | TlsBool true => Ret (optionsForClientTLS host)
       | _ => Raise tls_unknown_type
       end.

Definition _create_transport_endpoint (endpoint_config : EndpointConfig) : Res Endpoint :=
  match endpoint_config with
  | EpProvider name => Ret (ProvidedEndpoint name)
  | EpOther type_name => Raise (TypeError type_name)
  | EpDict d =>
      ty ← getitem "type" (ep_type d);
      if bool_decide (ty = "tcp") then
        let version := default 4%Z (ep_version d) in
        host ← getitem "host" (ep_host d);
        port ← getitem "port" (ep_port d);
        let timeout := default 10%Z (ep_timeout d) in
        let tls := default TlsNone (ep_tls d) in
        if truthy tls then
          context ← tls_context tls host;
          if bool_decide (version = 4%Z) then
            Ret (SSL4ClientEndpoint host port context timeout)
          else if bool_decide (version = 6%Z) then Raise tls_on_ipv6
          else Raise should_not_arrive_here
        else
          if bool_decide (version = 4%Z) then
            Ret (TCP4ClientEndpoint host port timeout)
          else if bool_decide (version = 6%Z) then
            if has_TCP6ClientEndpoint P
            then Ret (TCP6ClientEndpoint host port timeout)
            else Raise ipv6_not_supported
          else Raise should_not_arrive_here
      else if bool_decide (ty = "unix") then
        path ← getitem "path" (ep_path d);
        let timeout := default 10%Z (ep_timeout d) in
        Ret (UNIXClientEndpoint path timeout)
      else Raise should_not_arrive_here
  end.

Definition tls_must_be : Exn :=
  ValueError "'tls' configuration must be a dict, CertificateOptions or IOpenSSLClientConnectionCreator provider".
Definition endpoint_must_be : Exn :=
  ValueError "'endpoint' configuration must be a dict or IStreamClientEndpoint provider".

(** [Component._check_native_endpoint].  Without the TLS imports the
    names [IOpenSSLClientConnectionCreator] and [CertificateOptions]
    are unbound, so testing a value against them is a [NameError]. *)
Definition _check_native_endpoint (endpoint : EndpointConfig) : Res unit :=
  match endpoint with
  | EpProvider _ => Ret tt
  | EpDict d =>
      match ep_tls d with
      | None => Ret tt
      | Some (TlsDict _) | Some (TlsBool _) => Ret tt
      | Some tls =>
          if negb (_TLS P) then Raise (NameError "IOpenSSLClientConnectionCreator")
          else match tls with
               | TlsConnectionCreator => Ret tt
               | TlsCertificateOptions => Ret tt
               | _ => Raise tls_must_be
               end
      end
  | EpOther _ => Raise endpoint_must_be
  end.

(** [Component._connect_transport] up to the call of
    [transport_endpoint.connect]: the factory and the endpoint it is
    about to connect. *)
Definition _connect_transport (transport_config : TransportConfig) : Res (Endpoint * Factory) :=
  transport_factory ← _create_transport_factory transport_config;
  endpoint_config ← getitem "endpoint" (tc_endpoint transport_config);
  transport_endpoint ← _create_transport_endpoint endpoint_config;
  Ret (transport_endpoint, transport_factory).

End Construction.

(** ** Transport descriptors

    The transport class lives in [autobahn.wamp.component], next to the
    base class of [Component]; [start] only calls its methods. *)

(** Modelled from the spec: the fields of a transport descriptor.
    [retries_remaining] is [None] for an unbounded budget, [config] is
    the transport configuration handed to [_connect_transport], and
    [backoff] is the backoff policy the descriptor owns. *)
Record Transport : Type := {
  idx : nat;
  config : TransportConfig;
  retries_remaining : option nat;
  attempt_count : nat;
  permanently_failed : bool;
  backoff : nat -> nat
}.

(** Modelled from the spec: the transport class is not part of this
    file.  [can_retry() -> bool]: true iff not [failed] and
    ([retries_remaining] is unbounded or > 0). *)
Definition can_retry (t : Transport) : bool :=
  negb (permanently_failed t) &&
  match retries_remaining t with
  | None => true
  | Some n => bool_decide (0 < n)
  end.

(** Modelled from the spec: the transport class is not part of this
    file.  [record_attempt()]: increments [attempt_count]. *)
Definition record_attempt (t : Transport) : Transport :=
  {| idx := idx t; config := config t;
     retries_remaining := retries_remaining t;
     attempt_count := S (attempt_count t);
     permanently_failed := permanently_failed t;
     backoff := backoff t |}.

(** Modelled from the spec: the transport class is not part of this
    file.  [record_failure()]: decrements [retries_remaining] if
    bounded; the budget never goes below 0. *)
Definition record_failure (t : Transport) : Transport :=
  {| idx := idx t; config := config t;
     retries_remaining := Nat.pred <$> retries_remaining t;
     attempt_count := attempt_count t;
     permanently_failed := permanently_failed t;
     backoff := backoff t |}.

(** Modelled from the spec: the transport class is not part of this
    file.  [mark_failed()]: sets [failed = true] permanently. *)
Definition mark_failed (t : Transport) : Transport :=
  {| idx := idx t; config := config t;
     retries_remaining := retries_remaining t;
     attempt_count := attempt_count t;
     permanently_failed := true;
     backoff := backoff t |}.

(** Modelled from the spec: [can_reconnect()] of the transport class,
    which is not part of this file, is the spec's [can_retry()]. *)
Definition can_reconnect (t : Transport) : bool := can_retry t.

(** Modelled from the spec: [failed()] of the transport class, which
    is not part of this file, is the spec's [mark_failed()]. *)
Definition failed (t : Transport) : Transport := mark_failed t.

(** Modelled from the spec: [next_delay()] of the transport class,
    which is not part of this file, is the one call the loop makes
    before it sleeps; it stands for the spec's [record_attempt()]
    followed by the backoff policy asked for the delay of that
    attempt. *)
Definition next_delay (t : Transport) : nat * Transport :=
  let t' := record_attempt t in
  (backoff t' (attempt_count t'), t').

(** Modelled from the spec: what [_connect_once], which belongs to the
    base class, leaves in the transport object that [start] hands to
    it.  [retries_remaining] is decremented on each failed attempt, by
    [record_failure()]; [start] holds no such call, so it is the
    attempt that leaves its failure recorded in the descriptor. *)
Definition attempt_recorded (outcome : Res unit) (transport : Transport) : Transport :=
  match outcome with
  | Ret _ => transport
  | Raise _ => record_failure transport
  end.

(** ** The re-connect loop of [Component.start] *)

(** What a run leaves behind.  Messages logged at info and at error
    level are recorded; those logged at debug level are not. *)
Inductive Event : Type :=
| Sleep (transport_idx : nat) (delay : nat)
| ConnectOnce (transport_idx : nat)
| LogInfo (msg : string)
| LogError (msg : string).

(** The transports a trace connected to, in order. *)
Definition attempts (tr : list Event) : list nat :=
  omap (fun ev => match ev with ConnectOnce i => Some i | _ => None end) tr.

(** What the network answers: [w k i] is the way the session bound to
    the [k]-th connection attempt of this engine (counted from 0), made
    on the transport of index [i], ends. *)
Definition World : Type := nat -> nat -> Res unit.

Record Engine : Type := {
  transports : list Transport;
  cursor : nat;
  trace : list Event
}.

Definition emit (evs : list Event) (g : Engine) : Engine :=
  {| transports := transports g; cursor := cursor g; trace := trace g ++ evs |}.

(** A method call that mutates the transport object at position [pos]. *)
Definition store (pos : nat) (t : Transport) (g : Engine) : Engine :=
  {| transports := <[pos := t]> (transports g); cursor := cursor g; trace := trace g |}.

Definition advance (g : Engine) : Engine :=
  {| transports := transports g; cursor := S (cursor g); trace := trace g |}.

(** How one turn of [while reconnect:] ends: [Reconnect] goes round
    again, [Returned] leaves the loop with [reconnect = False] and the
    generator returns, [Raised e] leaves the generator by [e]. *)
Inductive Status : Type :=
| Reconnect
| Returned
| Raised (e : Exn).

Section Start.

Variable P : Platform.
Variable w : World.

(** Modelled from the spec: [_connect_once] belongs to the base class,
    which is not part of this file.  One connection attempt: it builds
    the transport through [_connect_transport], lets errors of that
    construction and of the session propagate unchanged, and does not
    retry.  This is how the attempt ends; what it leaves in the
    descriptor it was handed is [attempt_recorded]. *)
Definition _connect_once (k : nat) (transport : Transport) : Res unit :=
  _ ← _connect_transport P (config transport);
  w k (idx transport).

(** Modelled from the spec: [_can_reconnect] belongs to the base class,
    which is not part of this file.  It checks whether any descriptor
    in the list can still retry. *)
Definition _can_reconnect (g : Engine) : bool :=
  existsb can_reconnect (transports g).

(** The body of [for (lib, fn, reason) in e.args[0]]. *)
Definition tls_failure (acc : Transport * list Event) (entry : string * string * string)
  : Transport * list Event :=
  let '(lib, fn, reason) := entry in
  (failed acc.1,
   acc.2 ++ [LogError ("TLS failure: " ++ reason);
             LogError "Marking this transport as failed"]).

(** The [except Exception as e] clause; [transport] is the object at
    position [pos]. *)
Definition on_exception (pos : nat) (transport : Transport) (e : Exn) (g : Engine)
  : Status * Engine :=
  match e with
  | ApplicationError error =>
      if bool_decide (error ∈ ["wamp.error.no_such_realm"])
      then (Raised e, emit [LogError "Fatal error, not reconnecting"] g)
      else (Reconnect, g)
  | _ =>
      if _is_ssl_error P e then
        match e with
        | SSL_Error queue =>
            let '(transport', logs) := foldl tls_failure (transport, []) queue in
            (Reconnect, store pos transport' (emit logs g))
        | _ => (Reconnect, g)
        end
      else (Raised e, emit [LogError "Connection failed"] g)
  end.

(** One turn of the loop.  [next(transport_gen)] yields the object at
    position [cursor mod length]; on an empty list it raises
    [StopIteration].  The transport object is shared with
    [_connect_once]: what the attempt recorded in it is in the list
    before the [except] clause runs. *)
Definition loop_body (g : Engine) : Status * Engine :=
  let pos := cursor g mod length (transports g) in
  match transports g !! pos with
  | None => (Raised StopIteration, g)
  | Some transport =>
      let g := advance g in
      if can_reconnect transport then
        let '(delay, transport) := next_delay transport in
        let g := emit [Sleep (idx transport) delay] (store pos transport g) in
        let k := length (attempts (trace g)) in
        let g := emit [ConnectOnce (idx transport)] g in
        match _connect_once k transport with
        | Ret _ => (Returned, emit [LogInfo "Component completed successfully"] g)
        | Raise e =>
            let transport := attempt_recorded (Raise e) transport in
            let g := store pos transport g in
            if is_Exception e then on_exception pos transport e g
            else (Raised e, g)
        end
      else if negb (_can_reconnect g)
      then (Returned, emit [LogInfo "No remaining transports to try"] g)
      else (Reconnect, g)
  end.

(** [while reconnect:], for at most [fuel] turns; [Reconnect] as the
    result means the loop is still running after them. *)
Fixpoint reconnect_loop (fuel : nat) (g : Engine) : Status * Engine :=
  match fuel with
  | 0 => (Reconnect, g)
  | S fuel' =>
      match loop_body g with
      | (Reconnect, g') => reconnect_loop fuel' g'
      | done => done
      end
  end.

(** [Component.start] on a component whose [_transports] is [ts], from
    the point where it enters the re-connect loop; the listeners it
    fires for the ["start"] event before that belong to the base
    class.  The result is how the generator ends and the state it
    leaves. *)
Definition start (fuel : nat) (ts : list Transport) : Status * Engine :=
  reconnect_loop fuel {| transports := ts; cursor := 0; trace := [] |}.

End Start.

(** ** The supervisor [_run] *)

Record Component : Type := {
  component_name : string;
  _transports : list Transport
}.

(** The values [_run] can be handed as [components]. *)
#[warnings="-register-all"]
Inductive PyObject : Type :=
| AComponent (c : Component)
| AList (items : list PyObject)
| AnObject (type_name : string).

Definition type_of (o : PyObject) : string :=
  match o with
  | AComponent _ => "Component"
  | AList _ => "list"
  | AnObject type_name => type_name
  end.

Definition must_be_a_list (encountered : string) : Exn :=
  ValueError (dquote ++ "components" ++ dquote
              ++ " must be a list of Component objects - encountered " ++ encountered).

Definition must_be_a_list_item (encountered : string) : Exn :=
  ValueError (dquote ++ "components" ++ dquote
              ++ " must be a list of Component objects - encountereditem of type " ++ encountered).

(** [for c in components: if not isinstance(c, Component): raise]. *)
Fixpoint check_items (items : list PyObject) : Res (list Component) :=
  match items with
  | [] => Ret []
  | AComponent c :: rest => cs ← check_items rest; Ret (c :: cs)
  | o :: _ => Raise (must_be_a_list_item (type_of o))
  end.

(** The two checks that open [_run]. *)
Definition check_components (components : PyObject) : Res (list Component) :=
  let components :=
    match components with
    | AComponent c => AList [AComponent c]
    | _ => components
    end in
  match components with
  | AList items => check_items items
  | _ => Raise (must_be_a_list (type_of components))
  end.

(** A Deferred of Twisted, as far as [_run] uses it: it is pending or
    has fired, once, with a result; callbacks added to it run when it
    fires, and their return value becomes its result.  A successful
    [start] fires with [None]. *)
Inductive Deferred : Type :=
| Pending
| Fired (r : Res unit).

Definition has_fired (d : Deferred) : bool :=
  match d with
  | Pending => false
  | Fired _ => true
  end.

Record RunState : Type := {
  started : list Component;
  dl : list Deferred;
  log : list Event;
  reactor_stops : nat;
  d_all_done : Deferred
}.

(** The callback of a component's Deferred: it logs at debug level
    only and hands the result on. *)
Definition component_success (c : Component) (arg : unit) : list Event * Res unit :=
  ([], Ret arg).

(** The errback of a component's Deferred: one message at error level
    (its text is ["Component error: "] and the message of the failure),
    the traceback at debug level, and [None] as the result. *)
Definition component_failure (f : Exn) : list Event * Res unit :=
  ([LogError "Component error"], Ret tt).

(** [txaio.add_callbacks] at the moment the Deferred fires with [r]. *)
Definition add_callbacks {A B : Type} (r : Res A)
    (callback : A -> list Event * Res B) (errback : Exn -> list Event * Res B)
  : list Event * Res B :=
  match r with
  | Ret a => callback a
  | Raise f => errback f
  end.

(** The callback [completed] of [txaio.gather(dl, consume_exceptions=False)],
    run on the results once every member of [dl] has fired. *)
Fixpoint completed (res : list (Res unit)) : Res (list unit) :=
  match res with
  | [] => Ret []
  | Ret value :: rest => rtn ← completed rest; Ret (value :: rtn)
  | Raise f :: _ => Raise f
  end.

(** [all_done]: stops the reactor, swallowing [ReactorNotRunning]. *)
Definition all_done {A : Type} (arg : A) (s : RunState) : Res unit * RunState :=
  (Ret tt,
   {| started := started s; dl := dl s; log := log s;
      reactor_stops := S (reactor_stops s); d_all_done := d_all_done s |}).

Definition results (ds : list Deferred) : option (list (Res unit)) :=
  mapM (fun d => match d with Fired r => Some r | Pending => None end) ds.

(** The gathered Deferred with [all_done] on both of its paths: it
    fires at the moment the last member of [dl] has fired, and once. *)
Definition fire_when_complete (s : RunState) : RunState :=
  match d_all_done s, results (dl s) with
  | Pending, Some res =>
      let '(r, s') :=
        match completed res with
        | Ret rtn => all_done rtn s
        | Raise f => all_done f s
        end in
      {| started := started s'; dl := dl s'; log := log s';
         reactor_stops := reactor_stops s'; d_all_done := Fired r |}
  | _, _ => s
  end.

(** What the callbacks that [_run] put on a component's Deferred make
    of the result [r] of its [start]. *)
Definition component_callbacks (c : Component) (r : Res unit) : list Event * Res unit :=
  add_callbacks r (component_success c) component_failure.

(** [d = c.start(reactor); add_callbacks(d, ...); dl.append(d)]: [d]
    is the state in which [start] hands its Deferred back. *)
Definition start_component (s : RunState) (cd : Component * Deferred) : RunState :=
  let '(c, d) := cd in
  match d with
  | Pending =>
      {| started := started s ++ [c]; dl := dl s ++ [Pending]; log := log s;
         reactor_stops := reactor_stops s; d_all_done := d_all_done s |}
  | Fired r =>
      let '(logs, r') := component_callbacks c r in
      {| started := started s ++ [c]; dl := dl s ++ [Fired r']; log := log s ++ logs;
         reactor_stops := reactor_stops s; d_all_done := d_all_done s |}
  end.

Definition idle : RunState :=
  {| started := []; dl := []; log := []; reactor_stops := 0; d_all_done := Pending |}.

(** [_run(reactor, components)]; [start_of c] is the state of the
    Deferred that [c.start(reactor)] returns.  The result is what the
    call raises, if anything, and the state it leaves. *)
Definition _run (start_of : Component -> Deferred) (components : PyObject)
  : Res unit * RunState :=
  match check_components components with
  | Raise e => (Raise e, idle)
  | Ret cs =>
      let s := foldl start_component idle ((fun c => (c, start_of c)) <$> cs) in
      (Ret tt, fire_when_complete s)
  end.

(** Later, the [start] of the [i]-th component settles with [r]: the
    callbacks on its Deferred run, and the gathered Deferred fires if
    this was the last one.  A Deferred fires once. *)
Definition settle (s : RunState) (ev : nat * Res unit) : RunState :=
  let '(i, r) := ev in
  match dl s !! i, started s !! i with
  | Some Pending, Some c =>
      let '(logs, r') := component_callbacks c r in
      fire_when_complete
        {| started := started s; dl := <[i := Fired r']> (dl s); log := log s ++ logs;
           reactor_stops := reactor_stops s; d_all_done := d_all_done s |}
  | _, _ => s
  end.

(** ** Sample configurations *)

Definition full_platform : Platform :=
  {| _TLS := true; has_MsgPackSerializer := true;
     has_JsonSerializer := true; has_TCP6ClientEndpoint := true |}.

Definition tcp_endpoint (version : option Z) (tls : option TlsValue) : EndpointDict :=
  {| ep_type := Some "tcp"; ep_version := version;
     ep_host := Some "localhost"; ep_port := Some 8080%Z;
     ep_timeout := None; ep_tls := tls; ep_path := None |}.

Definition websocket_over (serializers : option (list string)) (endpoint : EndpointDict)
  : TransportConfig :=
  {| tc_type := Some "websocket"; tc_url := Some "ws://localhost:8080/ws";
     tc_serializers := serializers; tc_serializer := None;
     tc_endpoint := Some (EpDict endpoint) |}.

Definition plain_config : TransportConfig :=
  websocket_over None (tcp_endpoint None None).

(** A fresh descriptor of index [i] with retry budget [retries]. *)
Definition descriptor (i : nat) (cfg : TransportConfig) (retries : option nat) : Transport :=
  {| idx := i; config := cfg; retries_remaining := retries;
     attempt_count := 0; permanently_failed := false;
     backoff := fun n => n |}.

Definition not_authorized : Exn := ApplicationError "wamp.error.not_authorized".
Definition no_such_realm : Exn := ApplicationError "wamp.error.no_such_realm".

(** Worlds used in the examples. *)
Definition always (r : Res unit) : World := fun _ _ => r.

(** Transport 0 fails its TLS handshake with the error queue [queue];
    the other transports are refused once (attempt 1) and then work. *)
Definition tls_broken_on_0 (queue : list (string * string * string)) : World :=
  fun k i =>
    if bool_decide (i = 0) then Raise (SSL_Error queue)
    else if bool_decide (k = 1) then Raise not_authorized
    else Ret tt.

(** The state of the loop after [n] turns from [g]. *)
Definition after (P : Platform) (w : World) (n : nat) (g : Engine) : Engine :=
  (reconnect_loop P w n g).2.

(** The transport that is next in the cycle of [g], if the coming turn
    will connect to it. *)
Definition due (g : Engine) : option nat :=
  t ← transports g !! (cursor g mod length (transports g));
  if can_reconnect t then Some (idx t) else None.

Definition recognised (serializer_id : string) : Prop :=
  serializer_id ∈ ["msgpack"; "json"].

Definition is_component (o : PyObject) : bool :=
  match o with
  | AComponent _ => true
  | _ => false
  end.

(** The turn on an eligible transport, up to the [try] statement. *)
Definition attempted (g : Engine) (t : Transport) : Engine :=
  emit [ConnectOnce (idx t)]
    (emit [Sleep (idx t) (next_delay t).1]
       (store (cursor g mod length (transports g)) (next_delay t).2 (advance g))).

(** The turn on an eligible transport whose connection attempt failed,
    up to the [except] clause: the failure is recorded in the
    descriptor. *)
Definition refused (g : Engine) (t : Transport) : Engine :=
  store (cursor g mod length (transports g)) (record_failure (next_delay t).2)
        (attempted g t).

(** What a turn of the loop never changes in a descriptor. *)
Definition same_identity (t t' : Transport) : Prop :=
  idx t' = idx t /\ config t' = config t /\ backoff t' = backoff t.

(** Whether the [j]-th turn of [start] on [ts] (counted from 0) finds
    the transport it visits, the one at position [j mod length ts],
    able to reconnect. *)
Definition eligible_at (P : Platform) (w : World) (ts : list Transport) (j : nat) : bool :=
  match transports (after P w j {| transports := ts; cursor := 0; trace := [] |})
          !! (j mod length ts) with
  | Some t => can_reconnect t
  | None => false
  end.

(** The configured order, walked cyclically for [turns] turns, without
    the transports that cannot retry when their turn comes. *)
Definition round_robin (P : Platform) (w : World) (ts : list Transport) (turns : nat)
  : list nat :=
  omap (fun j => if eligible_at P w ts j then idx <$> ts !! (j mod length ts) else None)
       (seq 0 turns).


(** A websocket transport over TCP/IPv6 with [tls: True]. *)
Definition tls_over_ipv6 : TransportConfig :=
  websocket_over None (tcp_endpoint (Some 6%Z) (Some (TlsBool true))).

(** The slot of [dl] that [_run] fills for a component whose [start]
    hands back the Deferred [d]. *)
Definition slot (c : Component) (d : Deferred) : Deferred :=
  match d with
  | Pending => Pending
  | Fired r => Fired (component_callbacks c r).2
  end.

(** What [_run] guarantees of its state at every moment. *)
Definition settled_state (s : RunState) : Prop :=
  length (dl s) = length (started s) /\
  Forall (fun d => d = Pending \/ d = Fired (Ret tt)) (dl s) /\
  d_all_done s = (if forallb has_fired (dl s) then Fired (Ret tt) else Pending) /\
  reactor_stops s = (if forallb has_fired (dl s) then 1 else 0).

(** ** Vocabulary of the further properties *)

Definition is_log (ev : Event) : bool :=
  match ev with
  | LogInfo _ | LogError _ => true
  | _ => false
  end.

(** What a trace did on the network, in order: [(false, i)] for a
    sleep before connecting to transport [i], [(true, i)] for the
    connection attempt on it. *)
Definition actions (tr : list Event) : list (bool * nat) :=
  omap (fun ev => match ev with
                  | Sleep i _ => Some (false, i)
                  | ConnectOnce i => Some (true, i)
                  | _ => None
                  end) tr.

(** The serializers that one recognised id adds to the set: the
    batched and the plain variant, when the library could be imported. *)
Definition serializers_for (P : Platform) (serializer_id : string) : list Serializer :=
  if bool_decide (serializer_id = "msgpack") then
    if has_MsgPackSerializer P
    then [MsgPackSerializer true; MsgPackSerializer false] else []
  else if bool_decide (serializer_id = "json") then
    if has_JsonSerializer P
    then [JsonSerializer true; JsonSerializer false] else []
  else [].

(** The ids a transport configuration asks serializers for. *)
Definition configured_serializers (transport_config : TransportConfig) : list string :=
  default ["msgpack"; "json"] (tc_serializers transport_config).

(** Whether the endpoint dict asks for TLS: its ["tls"] entry is truthy. *)
Definition tls_requested (d : EndpointDict) : bool :=
  truthy (default TlsNone (ep_tls d)).

Definition is_ssl_endpoint (endpoint : Endpoint) : bool :=
  match endpoint with
  | SSL4ClientEndpoint _ _ _ _ => true
  | _ => false
  end.

(** The errors that building a transport can raise. *)
Definition is_configuration_error (e : Exn) : bool :=
  match e with
  | RuntimeError _ | KeyError _ | TypeError _ | AssertionError _ => true
  | _ => false
  end.

#[global] Instance Serializer_eq_dec : EqDecision Serializer.
Proof. solve_decision. Defined.

(** The entries of a log that were logged at error level. *)
Definition error_entries (tr : list Event) : list Event :=
  omap (fun ev => match ev with LogError _ => Some ev | _ => None end) tr.

(** Whether [start] handed back a Deferred that has fired with a failure. *)
Definition has_failed (d : Deferred) : bool :=
  match d with
  | Fired (Raise _) => true
  | _ => false
  end.

(** ** Constructing a [Component] *)

(** Modelled from the spec: the check of an endpoint made when a
    [Component] is constructed.  The constructor belongs to the base
    class, which is not part of this file; this file gives it the hook
    [_check_native_endpoint].  Unknown [type] values and malformed
    combinations (IPv6 with TLS) are rejected at construction, not
    deferred to connect time. *)
Definition check_endpoint (P : Platform) (endpoint : EndpointConfig) : Res unit :=
  _ ← _check_native_endpoint P endpoint;
  match endpoint with
  | EpDict d =>
      if bool_decide (ep_type d = Some "tcp") then
        if bool_decide (default 4%Z (ep_version d) = 6%Z) && tls_requested d
        then Raise (ValueError "TLS on IPv6 not implemented")
        else Ret tt
      else if bool_decide (ep_type d = Some "unix") then Ret tt
      else Raise (ValueError "invalid type in endpoint")
  | _ => Ret tt
  end.

(** Modelled from the spec: the check of one transport configuration
    made when a [Component] is constructed, in the base class, which
    is not part of this file: an unknown transport [type] is rejected,
    and so is an endpoint that [check_endpoint] rejects. *)
Definition check_transport (P : Platform) (transport_config : TransportConfig) : Res unit :=
  if bool_decide (tc_type transport_config = Some "websocket")
     || bool_decide (tc_type transport_config = Some "rawsocket")
  then match tc_endpoint transport_config with
       | Some endpoint => check_endpoint P endpoint
       | None => Ret tt
       end
  else Raise (ValueError "invalid transport type").

(** Modelled from the spec: the constructor of the base class, which
    is not part of this file, checks the transports in their
    configured order. *)
Fixpoint check_transports (P : Platform) (configs : list TransportConfig) : Res unit :=
  match configs with
  | [] => Ret tt
  | transport_config :: rest =>
      _ ← check_transport P transport_config;
      check_transports P rest
  end.

(** Modelled from the spec: constructing a [Component], in the base
    class, which is not part of this file.  The transport descriptors
    are created once, from the static configuration, each with its
    position in the configured list as its index; a configuration that
    the checks reject makes the construction fail. *)
Definition Component_init (P : Platform) (name : string)
    (configs : list TransportConfig) (retries : option nat) : Res Component :=
  _ ← check_transports P configs;
  Ret {| component_name := name;
         _transports := imap (fun i transport_config =>
                                descriptor i transport_config retries) configs |}.

(** The malformed configurations: an unknown transport type, an
    unknown endpoint type, or a TCP endpoint that combines IP version
    6 with TLS. *)
Definition malformed (transport_config : TransportConfig) : Prop :=
  (tc_type transport_config <> Some "websocket" /\
   tc_type transport_config <> Some "rawsocket") \/
  exists d,
    tc_endpoint transport_config = Some (EpDict d) /\
    ((ep_type d <> Some "tcp" /\ ep_type d <> Some "unix") \/
     (ep_type d = Some "tcp" /\ default 4%Z (ep_version d) = 6%Z /\
      tls_requested d = true)).

(** * Properties *)

(** ** One turn of the loop *)

Lemma attempts_app (tr1 tr2 : list Event) :
  attempts (tr1 ++ tr2) = attempts tr1 ++ attempts tr2.
Proof. unfold attempts. apply omap_app. Qed.

Lemma attempts_emit (evs : list Event) (g : Engine) :
  attempts (trace (emit evs g)) = attempts (trace g) ++ attempts evs.
Proof. unfold emit; simpl. apply attempts_app. Qed.

Section Turn.

Variable P : Platform.
Variable w : World.

Lemma attempted_attempts (g : Engine) (t : Transport) :
  attempts (trace (attempted g t)) = attempts (trace g) ++ [idx t].
Proof.
  unfold attempted, emit; simpl. rewrite !attempts_app; simpl.
  by rewrite app_nil_r.
Qed.

Lemma loop_body_eligible (g : Engine) (t : Transport) :
  transports g !! (cursor g mod length (transports g)) = Some t ->
  can_reconnect t = true ->
  loop_body P w g =
    match _connect_once P w (length (attempts (trace g))) t with
    | Ret _ => (Returned, emit [LogInfo "Component completed successfully"] (attempted g t))
    | Raise e =>
        if is_Exception e
        then on_exception P (cursor g mod length (transports g))
               (record_failure (next_delay t).2) e (refused g t)
        else (Raised e, refused g t)
    end.
Proof.
  intros Hlook Hcan. unfold loop_body. rewrite Hlook, Hcan.
  cbn [next_delay]. cbv zeta.
  replace (length (attempts (trace (emit _ (store _ _ (advance g))))))
    with (length (attempts (trace g))).
  2:{ unfold emit; simpl. rewrite attempts_app; simpl. by rewrite app_nil_r. }
  reflexivity.
Qed.

Lemma refused_trace (g : Engine) (t : Transport) :
  trace (refused g t) = trace (attempted g t).
Proof. reflexivity. Qed.

Lemma refused_attempts (g : Engine) (t : Transport) :
  attempts (trace (refused g t)) = attempts (trace g) ++ [idx t].
Proof. rewrite refused_trace. apply attempted_attempts. Qed.

Lemma loop_body_skipped (g : Engine) (t : Transport) :
  transports g !! (cursor g mod length (transports g)) = Some t ->
  can_reconnect t = false ->
  loop_body P w g =
    if negb (_can_reconnect g)
    then (Returned, emit [LogInfo "No remaining transports to try"] (advance g))
    else (Reconnect, advance g).
Proof.
  intros Hlook Hcan. unfold loop_body. rewrite Hlook, Hcan. reflexivity.
Qed.

Lemma reconnect_loop_done (fuel : nat) (g g' : Engine) (st : Status) :
  loop_body P w g = (st, g') -> st <> Reconnect ->
  reconnect_loop P w (S fuel) g = (st, g').
Proof.
  intros Hbody Hst. simpl. rewrite Hbody. by destruct st.
Qed.

Lemma reconnect_loop_again (fuel : nat) (g g' : Engine) :
  loop_body P w g = (Reconnect, g') ->
  reconnect_loop P w (S fuel) g = reconnect_loop P w fuel g'.
Proof. intros Hbody. simpl. by rewrite Hbody. Qed.

End Turn.

(** ** Failures that end the loop *)

Section Failures.

Variable P : Platform.
Variable w : World.

(** A failure that is neither an [ApplicationError] nor an SSL error
    leaves the loop in the turn that met it. *)
Lemma other_failure_propagates (g : Engine) (t : Transport) (e : Exn) :
  transports g !! (cursor g mod length (transports g)) = Some t ->
  can_reconnect t = true ->
  _connect_once P w (length (attempts (trace g))) t = Raise e ->
  is_ApplicationError e = false -> _is_ssl_error P e = false ->
  forall fuel, exists g',
    reconnect_loop P w (S fuel) g = (Raised e, g') /\
    attempts (trace g') = attempts (trace g) ++ [idx t].
Proof.
  intros Hlook Hcan Hraise Happ Hssl fuel.
  pose proof (loop_body_eligible P w g t Hlook Hcan) as Hbody.
  rewrite Hraise in Hbody.
  assert (exists g', loop_body P w g = (Raised e, g') /\
                     attempts (trace g') = attempts (trace g) ++ [idx t]) as (g' & Hg' & Htr).
  { rewrite Hbody. destruct (is_Exception e).
    - unfold on_exception. rewrite Hssl.
      destruct e; try discriminate Happ;
        (eexists; split; [reflexivity |]);
        rewrite attempts_emit, refused_attempts; simpl;
        by rewrite app_nil_r.
    - eexists; split; [reflexivity | apply refused_attempts]. }
  exists g'. split; [| exact Htr].
  apply reconnect_loop_done; [exact Hg' | discriminate].
Qed.

(** C1, as amended: a failure of a connection attempt that is neither
    an [ApplicationError] nor an SSL error ends the loop in the very
    turn that made the attempt and leaves [start] as that failure, so
    it is never retried; an [ApplicationError] whose error is not
    [wamp.error.no_such_realm] is swallowed instead, and the loop goes
    round again, with nothing but the failed attempt on record. *)
Theorem unclassified_failure_is_terminal (g : Engine) (t : Transport) (e : Exn) :
  transports g !! (cursor g mod length (transports g)) = Some t ->
  can_reconnect t = true ->
  _connect_once P w (length (attempts (trace g))) t = Raise e ->
  (is_ApplicationError e = false -> _is_ssl_error P e = false ->
   forall fuel, exists g',
     reconnect_loop P w (S fuel) g = (Raised e, g') /\
     attempts (trace g') = attempts (trace g) ++ [idx t]) /\
  (forall error, e = ApplicationError error -> error <> "wamp.error.no_such_realm" ->
   loop_body P w g = (Reconnect, refused g t)).
Proof.
  intros Hlook Hcan Hraise. split.
  - intros Happ Hssl. by apply other_failure_propagates.
  - intros error -> Hne.
    rewrite (loop_body_eligible P w g t Hlook Hcan), Hraise. simpl.
    rewrite bool_decide_eq_false_2; [reflexivity |].
    rewrite list_elem_of_singleton. exact Hne.
Qed.

(** C2: with the transports [A; B], when the first attempt, made on
    [A], raises the fatal [wamp.error.no_such_realm], [start] is left
    by that very error and the only connection attempt ever made is
    the one on [A]. *)
Theorem fatal_error_short_circuits (A B : Transport) (fuel : nat) :
  can_reconnect A = true ->
  _connect_once P w 0 A = Raise (ApplicationError "wamp.error.no_such_realm") ->
  exists g,
    start P w (S fuel) [A; B] = (Raised (ApplicationError "wamp.error.no_such_realm"), g) /\
    attempts (trace g) = [idx A].
Proof.
  intros Hcan Hraise. unfold start.
  set (g0 := {| transports := [A; B]; cursor := 0; trace := [] |}).
  assert (transports g0 !! (cursor g0 mod length (transports g0)) = Some A) as Hlook
    by reflexivity.
  pose proof (loop_body_eligible P w g0 A Hlook Hcan) as Hbody.
  change (length (attempts (trace g0))) with 0 in Hbody.
  rewrite Hraise in Hbody. simpl in Hbody.
  eexists. split.
  - apply reconnect_loop_done; [exact Hbody | discriminate].
  - unfold emit; simpl. reflexivity.
Qed.

(** C4: when the list of transports is not empty and none of them can
    retry, the first turn leaves the loop, [start] returns without an
    error, and no connection attempt has been made. *)
Theorem exhaustion_is_quiet (ts : list Transport) (fuel : nat) :
  ts <> [] ->
  Forall (fun t => can_reconnect t = false) ts ->
  exists g,
    start P w (S fuel) ts = (Returned, g) /\
    attempts (trace g) = [] /\
    transports g = ts.
Proof.
  intros Hne Hall. unfold start.
  set (g0 := {| transports := ts; cursor := 0; trace := [] |}).
  destruct ts as [| t ts']; [done |].
  assert (transports g0 !! (cursor g0 mod length (transports g0)) = Some t) as Hlook.
  { simpl. by rewrite Nat.sub_diag. }
  assert (can_reconnect t = false) as Hcan by (by inversion Hall).
  pose proof (loop_body_skipped P w g0 t Hlook Hcan) as Hbody.
  assert (_can_reconnect g0 = false) as Hnone.
  { unfold _can_reconnect. apply not_true_is_false. intros Hex.
    apply existsb_exists in Hex as (x & Hin & Hx).
    rewrite Forall_forall in Hall.
    apply list_elem_of_In in Hin. specialize (Hall x Hin). congruence. }
  rewrite Hnone in Hbody. simpl in Hbody.
  eexists. split; [| split].
  - apply reconnect_loop_done; [exact Hbody | discriminate].
  - reflexivity.
  - reflexivity.
Qed.

End Failures.

Lemma unclassified_failure_is_terminal_witness :
  let g := {| transports := [descriptor 0 plain_config None]; cursor := 0; trace := [] |} in
  let w := always (Raise (OtherException "ConnectionRefusedError")) in
  transports g !! (cursor g mod length (transports g)) = Some (descriptor 0 plain_config None) /\
  can_reconnect (descriptor 0 plain_config None) = true /\
  _connect_once full_platform w 0 (descriptor 0 plain_config None)
    = Raise (OtherException "ConnectionRefusedError") /\
  exists g',
    reconnect_loop full_platform w 5 g = (Raised (OtherException "ConnectionRefusedError"), g') /\
    attempts (trace g') = [0].
Proof.
  cbv zeta. split; [reflexivity |]. split; [reflexivity |]. split; [reflexivity |].
  refine (proj1 (unclassified_failure_is_terminal full_platform
                   (always (Raise (OtherException "ConnectionRefusedError")))
                   {| transports := [descriptor 0 plain_config None]; cursor := 0; trace := [] |}
                   (descriptor 0 plain_config None)
                   (OtherException "ConnectionRefusedError")
                   eq_refl eq_refl eq_refl) eq_refl eq_refl 4).
Defined.

(** C1 as stated fails: [wamp.error.not_authorized] is neither the
    fatal [ApplicationError] nor an SSL error, yet three turns later
    the loop is still running and has connected three times. *)
Lemma not_authorized_is_retried :
  let ts := [descriptor 0 plain_config None] in
  let w := always (Raise not_authorized) in
  _is_ssl_error full_platform not_authorized = false /\
  not_authorized <> ApplicationError "wamp.error.no_such_realm" /\
  _connect_once full_platform w 0 (descriptor 0 plain_config None) = Raise not_authorized /\
  (start full_platform w 3 ts).1 = Reconnect /\
  attempts (trace (start full_platform w 3 ts).2) = [0; 0; 0].
Proof. cbv zeta. repeat split; try reflexivity. discriminate. Qed.

Lemma fatal_error_short_circuits_witness :
  let A := descriptor 0 plain_config None in
  let B := descriptor 1 plain_config None in
  let w := always (Raise no_such_realm) in
  can_reconnect A = true /\
  _connect_once full_platform w 0 A = Raise (ApplicationError "wamp.error.no_such_realm") /\
  exists g,
    start full_platform w 7 [A; B] = (Raised (ApplicationError "wamp.error.no_such_realm"), g) /\
    attempts (trace g) = [idx A].
Proof.
  cbv zeta. split; [reflexivity |]. split; [reflexivity |].
  exact (fatal_error_short_circuits full_platform (always (Raise no_such_realm))
           (descriptor 0 plain_config None) (descriptor 1 plain_config None) 6
           eq_refl eq_refl).
Defined.

Lemma exhaustion_is_quiet_witness :
  let ts := [descriptor 0 plain_config (Some 0)] in
  ts <> [] /\
  Forall (fun t => can_reconnect t = false) ts /\
  exists g,
    start full_platform (always (Ret tt)) 1 ts = (Returned, g) /\
    attempts (trace g) = [] /\
    transports g = ts.
Proof.
  cbv zeta.
  assert ([descriptor 0 plain_config (Some 0)] <> []) as Hne by discriminate.
  assert (Forall (fun t => can_reconnect t = false) [descriptor 0 plain_config (Some 0)]) as Hall.
  { constructor; [reflexivity | constructor]. }
  split; [exact Hne |]. split; [exact Hall |].
  exact (exhaustion_is_quiet full_platform (always (Ret tt)) _ 0 Hne Hall).
Defined.

(** ** TLS failures *)

Lemma tls_failure_fold_failed (queue : list (string * string * string))
    (t : Transport) (logs : list Event) :
  queue <> [] -> (foldl tls_failure (t, logs) queue).1 = failed t.
Proof.
  revert t logs. induction queue as [| entry queue IH]; intros t logs Hne; [done |].
  destruct entry as [[lib fn] reason]. simpl.
  destruct queue as [| entry' queue'].
  - reflexivity.
  - rewrite IH by discriminate. reflexivity.
Qed.

(** An SSL error with at least one entry in its error queue takes the
    transport out of the cycle. *)
Lemma tls_failure_disqualifies (P : Platform) (w : World) (g : Engine) (t : Transport)
    (queue : list (string * string * string)) :
  _TLS P = true -> queue <> [] ->
  transports g !! (cursor g mod length (transports g)) = Some t ->
  can_reconnect t = true ->
  _connect_once P w (length (attempts (trace g))) t = Raise (SSL_Error queue) ->
  exists g',
    loop_body P w g = (Reconnect, g') /\
    transports g' !! (cursor g mod length (transports g))
      = Some (failed (record_failure (next_delay t).2)) /\
    can_reconnect (failed (record_failure (next_delay t).2)) = false.
Proof.
  intros Htls Hqueue Hlook Hcan Hraise.
  rewrite (loop_body_eligible P w g t Hlook Hcan), Hraise.
  cbn [is_Exception]. unfold on_exception, _is_ssl_error. rewrite Htls.
  pose proof (tls_failure_fold_failed queue (record_failure (next_delay t).2) [] Hqueue)
    as Hmark.
  destruct (foldl tls_failure (record_failure (next_delay t).2, []) queue) as [t' logs].
  simpl in Hmark. subst t'.
  eexists. split; [reflexivity |]. split; [| reflexivity].
  unfold refused, attempted, store, emit, advance. cbn [transports].
  rewrite !list_insert_insert_eq.
  apply list_lookup_insert_eq. by eapply lookup_lt_Some.
Qed.

(** C3 at an SSL error whose error queue is empty: the body of the
    [for] statement, which holds the call of [failed()], does not run.
    After its first failure transport 0 is still eligible, and the
    loop connects to it again. *)
Lemma empty_error_queue_is_not_marked :
  let ts := [descriptor 0 plain_config None; descriptor 1 plain_config None] in
  let r := start full_platform (tls_broken_on_0 []) 4 ts in
  _is_ssl_error full_platform (SSL_Error []) = true /\
  r.1 = Returned /\
  attempts (trace r.2) = [0; 1; 0; 1] /\
  permanently_failed <$> transports r.2 = [false; false] /\
  can_reconnect <$> transports r.2 = [true; true].
Proof. cbv zeta. repeat split; reflexivity. Qed.

(** The same run with one entry in the error queue: transport 0 is
    marked at its first failure and never connected to again. *)
Lemma one_entry_queue_is_marked :
  let ts := [descriptor 0 plain_config None; descriptor 1 plain_config None] in
  let queue := [("SSL routines", "ssl3_read_bytes", "sslv3 alert handshake failure")] in
  let r := start full_platform (tls_broken_on_0 queue) 4 ts in
  r.1 = Returned /\
  attempts (trace r.2) = [0; 1; 1] /\
  permanently_failed <$> transports r.2 = [true; false].
Proof. cbv zeta. repeat split; reflexivity. Qed.

(** ** What a turn changes *)

Lemma same_identity_refl (t : Transport) : same_identity t t.
Proof. by repeat split. Qed.

Lemma same_identity_trans (t1 t2 t3 : Transport) :
  same_identity t1 t2 -> same_identity t2 t3 -> same_identity t1 t3.
Proof.
  intros (? & ? & ?) (? & ? & ?). repeat split; congruence.
Qed.

Lemma tls_failure_fold_shape (queue : list (string * string * string))
    (t : Transport) (logs : list Event) :
  same_identity t (foldl tls_failure (t, logs) queue).1 /\
  attempts (foldl tls_failure (t, logs) queue).2 = attempts logs.
Proof.
  revert t logs. induction queue as [| [[lib fn] reason] queue IH]; intros t logs.
  - split; [apply same_identity_refl | reflexivity].
  - simpl. destruct (IH (failed t)
      (logs ++ [LogError ("TLS failure: " ++ reason);
                LogError "Marking this transport as failed"])) as [Hid Hatt].
    split.
    + eapply same_identity_trans; [| exact Hid]. by repeat split.
    + rewrite Hatt, attempts_app. simpl. by rewrite app_nil_r.
Qed.

Section Shape.

Variable P : Platform.
Variable w : World.

(** The [except] clause writes at most the transport it was handed,
    keeps its identity, and connects to nothing. *)
Lemma on_exception_shape (pos : nat) (t : Transport) (e : Exn) (g : Engine) :
  transports g !! pos = Some t ->
  exists t' evs st,
    on_exception P pos t e g =
      (st, {| transports := <[pos := t']> (transports g);
              cursor := cursor g; trace := trace g ++ evs |}) /\
    same_identity t t' /\ attempts evs = [].
Proof.
  intros Hlook.
  assert (forall evs st, attempts evs = [] ->
            exists t' evs' st',
              ((st, emit evs g) : Status * Engine) =
                (st', {| transports := <[pos := t']> (transports g);
                         cursor := cursor g; trace := trace g ++ evs' |}) /\
              same_identity t t' /\ attempts evs' = []) as Hkeep.
  { intros evs st Hevs. exists t, evs, st. split; [| split; [apply same_identity_refl | done]].
    unfold emit. by rewrite list_insert_id. }
  assert (forall st, exists t' evs' st',
              ((st, g) : Status * Engine) =
                (st', {| transports := <[pos := t']> (transports g);
                         cursor := cursor g; trace := trace g ++ evs' |}) /\
              same_identity t t' /\ attempts evs' = []) as Hsame.
  { intros st. exists t, [], st. split; [| split; [apply same_identity_refl | done]].
    rewrite list_insert_id by done. rewrite app_nil_r. by destruct g. }
  unfold on_exception.
  destruct e; try (destruct (_is_ssl_error P _); [apply Hsame | by apply Hkeep]).
  - destruct (bool_decide _); [by apply Hkeep | apply Hsame].
  - destruct (_is_ssl_error P _); [| by apply Hkeep].
    destruct (foldl tls_failure (t, []) queue) as [t' logs] eqn:Hfold.
    destruct (tls_failure_fold_shape queue t []) as [Hid Hatt].
    rewrite Hfold in Hid, Hatt. simpl in Hid, Hatt.
    exists t', logs, Reconnect. split; [reflexivity | by split].
Qed.

(** One turn that finds a transport: the cursor moves on by one, at
    most the visited transport is written, and the turn connects to it
    exactly when it can reconnect. *)
Lemma loop_body_shape (g : Engine) (t : Transport) :
  transports g !! (cursor g mod length (transports g)) = Some t ->
  exists t' evs st,
    loop_body P w g =
      (st, {| transports := <[cursor g mod length (transports g) := t']> (transports g);
              cursor := S (cursor g); trace := trace g ++ evs |}) /\
    same_identity t t' /\
    attempts evs = if can_reconnect t then [idx t] else [].
Proof.
  intros Hlook. set (pos := cursor g mod length (transports g)) in *.
  destruct (can_reconnect t) eqn:Hcan.
  - rewrite (loop_body_eligible P w g t Hlook Hcan). fold pos.
    assert (transports (attempted g t) !! pos = Some (next_delay t).2) as Hlook'.
    { unfold attempted. simpl. fold pos. apply list_lookup_insert_eq.
      by eapply lookup_lt_Some. }
    assert (attempted g t =
            {| transports := <[pos := (next_delay t).2]> (transports g);
               cursor := S (cursor g);
               trace := trace g ++ [Sleep (idx t) (next_delay t).1; ConnectOnce (idx t)] |})
      as Hatt.
    { unfold attempted, emit, store, advance. simpl. fold pos. by rewrite <- app_assoc. }
    assert (same_identity t (next_delay t).2) as Hid by (by repeat split).
    assert (same_identity t (record_failure (next_delay t).2)) as Hidf by (by repeat split).
    assert (refused g t =
            {| transports := <[pos := record_failure (next_delay t).2]> (transports g);
               cursor := S (cursor g);
               trace := trace g ++ [Sleep (idx t) (next_delay t).1; ConnectOnce (idx t)] |})
      as Href.
    { unfold refused, store. rewrite Hatt. cbn [transports cursor trace]. fold pos.
      by rewrite list_insert_insert_eq. }
    assert (transports (refused g t) !! pos = Some (record_failure (next_delay t).2))
      as Hlookf.
    { rewrite Href. cbn [transports]. apply list_lookup_insert_eq.
      by eapply lookup_lt_Some. }
    destruct (_connect_once P w _ t) as [[] | e].
    + exists (next_delay t).2,
        [Sleep (idx t) (next_delay t).1; ConnectOnce (idx t);
         LogInfo "Component completed successfully"], Returned.
      split; [| by split]. rewrite Hatt. unfold emit. simpl. by rewrite <- app_assoc.
    + destruct (is_Exception e).
      * destruct (on_exception_shape pos (record_failure (next_delay t).2) e
                    (refused g t) Hlookf)
          as (t' & evs & st & Heq & Hid' & Hevs).
        exists t', ([Sleep (idx t) (next_delay t).1; ConnectOnce (idx t)] ++ evs), st.
        split; [| split].
        -- rewrite Heq, Href. simpl. rewrite list_insert_insert_eq. by rewrite <- app_assoc.
        -- by eapply same_identity_trans.
        -- rewrite attempts_app, Hevs. reflexivity.
      * exists (record_failure (next_delay t).2),
          [Sleep (idx t) (next_delay t).1; ConnectOnce (idx t)], (Raised e).
        split; [by rewrite Href | by split].
  - rewrite (loop_body_skipped P w g t Hlook Hcan). fold pos.
    destruct (negb (_can_reconnect g)).
    + exists t, [LogInfo "No remaining transports to try"], Returned.
      split; [| split; [apply same_identity_refl | done]].
      unfold emit, advance. simpl. by rewrite list_insert_id.
    + exists t, [], Reconnect.
      split; [| split; [apply same_identity_refl | done]].
      unfold advance. rewrite list_insert_id by done. by rewrite app_nil_r.
Qed.

Lemma loop_body_empty (g : Engine) :
  transports g !! (cursor g mod length (transports g)) = None ->
  loop_body P w g = (Raised StopIteration, g).
Proof. intros Hlook. unfold loop_body. by rewrite Hlook. Qed.

End Shape.

(** ** Round-robin order *)

Lemma omap_pointwise {A B : Type} (f g : A -> option B) (l : list A) :
  (forall x, f x = g x) -> omap f l = omap g l.
Proof.
  intros Hfg. induction l as [| x l IH]; [done |].
  csimpl. rewrite Hfg, IH. done.
Qed.

Lemma omap_fmap_compose {A B C : Type} (g : A -> B) (f : B -> option C) (l : list A) :
  omap f (g <$> l) = omap (fun x => f (g x)) l.
Proof.
  induction l as [| x l IH]; [done |].
  csimpl. by rewrite IH.
Qed.

Lemma same_identity_insert (ts : list Transport) (pos : nat) (t t' : Transport) :
  ts !! pos = Some t -> same_identity t t' ->
  Forall2 same_identity ts (<[pos := t']> ts).
Proof.
  intros Hlook Hid.
  rewrite <- (list_insert_id ts pos t Hlook) at 1.
  apply Forall2_insert; [| exact Hid].
  apply Forall_Forall2_diag, Forall_forall. intros; apply same_identity_refl.
Qed.

Lemma running_or_done (st : Status) : st = Reconnect \/ st <> Reconnect.
Proof. destruct st; [by left | by right | by right]. Qed.

Lemma cyclic_position_reached (n c i : nat) :
  i < n -> exists k, k < n /\ (c + k) mod n = i.
Proof.
  intros Hi. exists ((i + (n - c mod n)) mod n).
  assert (n <> 0) as Hn by lia.
  split; [by apply Nat.mod_upper_bound |].
  rewrite Nat.Div0.add_mod_idemp_r.
  rewrite <- Nat.Div0.add_mod_idemp_l.
  pose proof (Nat.mod_upper_bound c n Hn) as Hc.
  replace (c mod n + (i + (n - c mod n))) with (i + 1 * n) by lia.
  rewrite Nat.Div0.mod_add. by apply Nat.mod_small.
Qed.

Section RoundRobin.

Variable P : Platform.
Variable w : World.

Lemma after_0 (g : Engine) : after P w 0 g = g.
Proof. reflexivity. Qed.

Lemma after_again (n : nat) (g g' : Engine) :
  loop_body P w g = (Reconnect, g') -> after P w (S n) g = after P w n g'.
Proof. intros Hbody. unfold after. by rewrite (reconnect_loop_again P w n g g' Hbody). Qed.

Lemma after_done (n : nat) (g g' : Engine) (st : Status) :
  loop_body P w g = (st, g') -> st <> Reconnect -> after P w (S n) g = g'.
Proof. intros Hbody Hst. unfold after. by rewrite (reconnect_loop_done P w n g g' st Hbody Hst). Qed.

(** Whatever the loop does, the descriptors keep their places and
    their identity, and the cursor only moves forward. *)
Lemma reconnect_loop_frame (fuel : nat) (g : Engine) :
  Forall2 same_identity (transports g) (transports (after P w fuel g)) /\
  cursor g <= cursor (after P w fuel g).
Proof.
  revert g. induction fuel as [| fuel IH]; intros g.
  - rewrite after_0. split; [| lia].
    apply Forall_Forall2_diag, Forall_forall. intros; apply same_identity_refl.
  - destruct (transports g !! (cursor g mod length (transports g))) as [t |] eqn:Hlook.
    + destruct (loop_body_shape P w g t Hlook) as (t' & evs & st & Hbody & Hid & _).
      pose proof (same_identity_insert _ _ _ _ Hlook Hid) as Hstep.
      destruct (running_or_done st) as [-> | Hst].
      * rewrite (after_again fuel g _ Hbody).
        destruct (IH {| transports := <[cursor g mod length (transports g) := t']> (transports g);
                        cursor := S (cursor g); trace := trace g ++ evs |}) as [Hids Hcur].
        simpl in Hids, Hcur. split; [| lia].
        eapply Forall2_trans; [| exact Hstep | exact Hids].
        intros x y z. apply same_identity_trans.
      * rewrite (after_done fuel g _ st Hbody Hst). simpl. split; [exact Hstep | lia].
    + rewrite (after_done fuel g g (Raised StopIteration)); [| by apply loop_body_empty | done].
      split; [| lia].
      apply Forall_Forall2_diag, Forall_forall. intros; apply same_identity_refl.
Qed.

Lemma same_identity_idx (ts ts' : list Transport) :
  Forall2 same_identity ts ts' -> idx <$> ts' = idx <$> ts.
Proof.
  induction 1 as [| t t' ts ts' (Hidx & _) _ IH]; [done |].
  csimpl. by rewrite Hidx, IH.
Qed.

(** The connection attempts of a run are the transports its turns
    visit, position after position, without those that cannot
    reconnect when they are visited. *)
Lemma reconnect_loop_order (fuel : nat) (g : Engine) :
  attempts (trace (after P w fuel g)) =
    attempts (trace g) ++
    omap (fun j =>
            match transports (after P w j g) !! ((cursor g + j) mod length (transports g)) with
            | Some t => if can_reconnect t then Some (idx t) else None
            | None => None
            end)
         (seq 0 (cursor (after P w fuel g) - cursor g)).
Proof.
  revert g. induction fuel as [| fuel IH]; intros g.
  - rewrite after_0, Nat.sub_diag. simpl. by rewrite app_nil_r.
  - destruct (transports g !! (cursor g mod length (transports g))) as [t |] eqn:Hlook.
    + destruct (loop_body_shape P w g t Hlook) as (t' & evs & st & Hbody & Hid & Hevs).
      set (g1 := {| transports := <[cursor g mod length (transports g) := t']> (transports g);
                    cursor := S (cursor g); trace := trace g ++ evs |}) in *.
      assert (omap (fun j =>
                match transports (after P w j g) !! ((cursor g + j) mod length (transports g)) with
                | Some t => if can_reconnect t then Some (idx t) else None
                | None => None
                end) [0] = attempts evs) as Hfirst.
      { csimpl. rewrite after_0, Nat.add_0_r, Hlook, Hevs. by destruct (can_reconnect t). }
      destruct (running_or_done st) as [-> | Hst].
      * rewrite (after_again fuel g g1 Hbody).
        destruct (reconnect_loop_frame fuel g1) as [_ Hcur]. simpl in Hcur.
        replace (cursor (after P w fuel g1) - cursor g)
          with (S (cursor (after P w fuel g1) - cursor g1)) by (simpl; lia).
        rewrite IH. simpl trace at 1. rewrite attempts_app, <- app_assoc. f_equal.
        change (seq 0 (S (cursor (after P w fuel g1) - cursor g1)))
          with ([0] ++ seq 1 (cursor (after P w fuel g1) - cursor g1)).
        rewrite omap_app, Hfirst. f_equal.
        rewrite <- fmap_S_seq, omap_fmap_compose. apply omap_pointwise.
        intros j. simpl. rewrite (after_again j g g1 Hbody).
        rewrite length_insert. by replace (cursor g + S j) with (S (cursor g + j)) by lia.
      * rewrite (after_done fuel g g1 st Hbody Hst).
        replace (cursor g1 - cursor g) with 1 by (simpl; lia).
        change (seq 0 1) with [0]. rewrite Hfirst. simpl. by rewrite attempts_app.
    + rewrite (after_done fuel g g (Raised StopIteration)); [| by apply loop_body_empty | done].
      rewrite Nat.sub_diag. simpl. by rewrite app_nil_r.
Qed.

(** While some transport can reconnect, the loop reaches the next one
    in the cycle within less than one round of skipped turns. *)
Lemma skip_to_eligible (k : nat) (g : Engine) (t : Transport) :
  transports g !! ((cursor g + k) mod length (transports g)) = Some t ->
  can_reconnect t = true ->
  exists k', k' <= k /\
    reconnect_loop P w k' g =
      (Reconnect, {| transports := transports g; cursor := cursor g + k'; trace := trace g |}) /\
    is_Some (due {| transports := transports g; cursor := cursor g + k'; trace := trace g |}).
Proof.
  revert g. induction k as [| k IH]; intros g Hlook Hcan.
  - exists 0. split; [lia |]. rewrite Nat.add_0_r in *. split.
    + simpl. by destruct g.
    + unfold due. simpl. rewrite Hlook. simpl. rewrite Hcan. by eexists.
  - assert (length (transports g) <> 0) as Hn.
    { apply lookup_lt_Some in Hlook. lia. }
    destruct (lookup_lt_is_Some_2 (transports g) (cursor g mod length (transports g)))
      as [t0 Hlook0]; [by apply Nat.mod_upper_bound |].
    destruct (can_reconnect t0) eqn:Hcan0.
    + exists 0. split; [lia |]. rewrite Nat.add_0_r. split.
      * simpl. by destruct g.
      * unfold due. simpl. rewrite Hlook0. simpl. rewrite Hcan0. by eexists.
    + assert (_can_reconnect g = true) as Hsome.
      { unfold _can_reconnect. apply existsb_exists. exists t. split; [| done].
        apply list_elem_of_In. by eapply list_elem_of_lookup_2. }
      pose proof (loop_body_skipped P w g t0 Hlook0 Hcan0) as Hbody.
      rewrite Hsome in Hbody. simpl in Hbody.
      destruct (IH (advance g)) as (k' & Hle & Hrun & Hdue).
      { unfold advance. cbn [transports cursor].
        by replace (S (cursor g) + k) with (cursor g + S k) by lia. }
      { done. }
      exists (S k'). split; [lia |].
      unfold advance in Hrun, Hdue. cbn [transports cursor trace] in Hrun, Hdue.
      replace (cursor g + S k') with (S (cursor g) + k') by lia.
      split; [| exact Hdue].
      by rewrite (reconnect_loop_again P w k' g _ Hbody).
Qed.

Lemma next_attempt_within_cycle (g : Engine) :
  _can_reconnect g = true ->
  exists k, k < length (transports g) /\
    reconnect_loop P w k g =
      (Reconnect, {| transports := transports g; cursor := cursor g + k; trace := trace g |}) /\
    is_Some (due {| transports := transports g; cursor := cursor g + k; trace := trace g |}).
Proof.
  intros Hsome. unfold _can_reconnect in Hsome.
  apply existsb_exists in Hsome as (t & Hin & Hcan).
  apply list_elem_of_In, list_elem_of_lookup_1 in Hin as [i Hi].
  destruct (cyclic_position_reached (length (transports g)) (cursor g) i) as (k & Hk & Hpos).
  { by eapply lookup_lt_Some. }
  destruct (skip_to_eligible k g t) as (k' & Hle & Hrun & Hdue); [by rewrite Hpos | done |].
  exists k'. split; [lia | by split].
Qed.

(** A turn connects exactly to the transport that is due. *)
Lemma loop_body_due (g : Engine) (i : nat) :
  due g = Some i ->
  attempts (trace (loop_body P w g).2) = attempts (trace g) ++ [i].
Proof.
  unfold due. intros Hdue.
  destruct (transports g !! (cursor g mod length (transports g))) as [t |] eqn:Hlook;
    [| discriminate].
  simpl in Hdue. destruct (can_reconnect t) eqn:Hcan; [| discriminate].
  injection Hdue as <-.
  destruct (loop_body_shape P w g t Hlook) as (t' & evs & st & Hbody & _ & Hevs).
  rewrite Hbody, Hcan in *. simpl. by rewrite attempts_app, Hevs.
Qed.

Lemma reconnect_loop_add (a b : nat) (g : Engine) :
  (reconnect_loop P w a g).1 = Reconnect ->
  reconnect_loop P w (a + b) g = reconnect_loop P w b (after P w a g).
Proof.
  revert g. induction a as [| a IH]; intros g Hrun; [done |].
  simpl in Hrun. unfold after. simpl.
  destruct (loop_body P w g) as [[| |e] g'] eqn:Hbody; try discriminate Hrun.
  by apply IH.
Qed.

End RoundRobin.

Lemma reconnect_loop_1 (P : Platform) (w : World) (g : Engine) :
  (reconnect_loop P w 1 g).2 = (loop_body P w g).2.
Proof. simpl. by destruct (loop_body P w g) as [[| |e] g']. Qed.

(** C5: the connection attempts of [start] are the configured list
    walked cyclically, position [j mod length] at turn [j], without the
    transports that cannot retry when their turn comes; the descriptors
    keep their places in the list; and while the loop runs and some
    transport can still retry, less than one round of skipped turns
    leads to the next transport that can, which the following turn
    connects to. *)
Theorem round_robin_order (P : Platform) (w : World) (ts : list Transport) (fuel : nat) :
  let r := start P w fuel ts in
  attempts (trace r.2) = round_robin P w ts (cursor r.2) /\
  idx <$> transports r.2 = idx <$> ts /\
  (r.1 = Reconnect -> _can_reconnect r.2 = true ->
   exists k i, k < length ts /\
     start P w (fuel + k) ts =
       (Reconnect, {| transports := transports r.2; cursor := cursor r.2 + k;
                      trace := trace r.2 |}) /\
     due {| transports := transports r.2; cursor := cursor r.2 + k; trace := trace r.2 |}
       = Some i /\
     attempts (trace (start P w (fuel + k + 1) ts).2) = attempts (trace r.2) ++ [i]).
Proof.
  cbv zeta. unfold start.
  set (g0 := {| transports := ts; cursor := 0; trace := [] |}).
  change (reconnect_loop P w fuel g0).2 with (after P w fuel g0).
  destruct (reconnect_loop_frame P w fuel g0) as [Hids _]. simpl in Hids.
  split; [| split].
  - rewrite (reconnect_loop_order P w fuel g0). simpl. rewrite Nat.sub_0_r.
    unfold round_robin. apply omap_pointwise. intros j.
    unfold eligible_at. fold g0.
    destruct (reconnect_loop_frame P w j g0) as [Hj _]. simpl in Hj.
    destruct (transports (after P w j g0) !! (j mod length ts)) as [t |] eqn:Hlook; [| done].
    destruct (Forall2_lookup_r _ _ _ _ _ Hj Hlook) as (t0 & Hlook0 & Hidx & _).
    rewrite Hlook0. simpl. by rewrite Hidx.
  - by apply same_identity_idx.
  - intros Hrun Hsome.
    destruct (next_attempt_within_cycle P w (after P w fuel g0) Hsome)
      as (k & Hk & Hskip & [i Hdue]).
    exists k, i. split; [| split; [| split]].
    + apply Forall2_length in Hids. by rewrite Hids.
    + by rewrite (reconnect_loop_add P w fuel k g0 Hrun).
    + exact Hdue.
    + rewrite <- Nat.add_assoc.
      rewrite (reconnect_loop_add P w fuel (k + 1) g0 Hrun).
      rewrite (reconnect_loop_add P w k 1 (after P w fuel g0)) by (by rewrite Hskip).
      unfold after at 1. rewrite Hskip. cbn [snd].
      rewrite reconnect_loop_1. by rewrite (loop_body_due P w _ i Hdue).
Qed.

(** Three transports, the middle one without retry budget, every
    attempt refused: seven turns connect to 0, 2, 0, 2, 0. *)
Lemma round_robin_example :
  let ts := [descriptor 0 plain_config None; descriptor 1 plain_config (Some 0);
             descriptor 2 plain_config None] in
  let r := start full_platform (always (Raise not_authorized)) 7 ts in
  r.1 = Reconnect /\ attempts (trace r.2) = [0; 2; 0; 2; 0] /\
  round_robin full_platform (always (Raise not_authorized)) ts 7 = [0; 2; 0; 2; 0].
Proof. cbv zeta. repeat split; reflexivity. Qed.

Lemma round_robin_order_witness :
  let ts := [descriptor 0 plain_config None; descriptor 1 plain_config (Some 0);
             descriptor 2 plain_config None] in
  let w := always (Raise not_authorized) in
  let r := start full_platform w 7 ts in
  r.1 = Reconnect /\ _can_reconnect r.2 = true /\
  attempts (trace r.2) = round_robin full_platform w ts (cursor r.2) /\
  exists k i, k < length ts /\
    start full_platform w (7 + k) ts =
      (Reconnect, {| transports := transports r.2; cursor := cursor r.2 + k;
                     trace := trace r.2 |}) /\
    due {| transports := transports r.2; cursor := cursor r.2 + k; trace := trace r.2 |}
      = Some i /\
    attempts (trace (start full_platform w (7 + k + 1) ts).2) = attempts (trace r.2) ++ [i].
Proof.
  cbv zeta.
  destruct (round_robin_order full_platform (always (Raise not_authorized))
              [descriptor 0 plain_config None; descriptor 1 plain_config (Some 0);
               descriptor 2 plain_config None] 7) as (Horder & _ & Hnext).
  split; [reflexivity |]. split; [reflexivity |]. split; [exact Horder |].
  apply Hnext; reflexivity.
Defined.

(** ** Retry budgets *)

Section Budget.

Variable P : Platform.
Variable w : World.


End Budget.


(** A transport with a budget of two retries that is refused every
    time: two attempts, each leaving the budget one less, then the
    third turn finds no transport left and [start] returns. *)
Lemma bounded_budget_example :
  let t := descriptor 0 plain_config (Some 2) in
  let w := always (Raise not_authorized) in
  retries_remaining <$> transports (start full_platform w 1 [t]).2 = [Some 1] /\
  retries_remaining <$> transports (start full_platform w 2 [t]).2 = [Some 0] /\
  (start full_platform w 3 [t]).1 = Returned /\
  attempts (trace (start full_platform w 3 [t]).2) = [0; 0] /\
  last (trace (start full_platform w 3 [t]).2)
    = Some (LogInfo "No remaining transports to try").
Proof. cbv zeta. repeat split; reflexivity. Qed.

(** ** Serializers *)

Lemma recognised_dec (serializer_id : string) :
  {recognised serializer_id} + {~ recognised serializer_id}.
Proof. unfold recognised. apply decide. apply _. Qed.

(** The first serializer id that is not recognised splits the list. *)
Lemma first_unrecognised (ids : list string) :
  (exists id, id ∈ ids /\ ~ recognised id) ->
  exists pre bad post,
    ids = pre ++ bad :: post /\ Forall recognised pre /\ ~ recognised bad.
Proof.
  induction ids as [| x ids IH]; intros (id & Hin & Hid).
  - by apply elem_of_nil in Hin.
  - destruct (recognised_dec x) as [Hx | Hx].
    + apply elem_of_cons in Hin as [-> | Hin]; [done |].
      destruct IH as (pre & bad & post & -> & Hpre & Hbad); [by exists id |].
      exists (x :: pre), bad, post. split; [done |]. split; [by constructor | done].
    + exists [], x, ids. split; [done |]. split; [constructor | done].
Qed.

Lemma unique_list_keeps_first_unrecognised (seen : gset string)
    (pre : list string) (bad : string) (post : list string) :
  bad ∉ seen -> Forall recognised pre -> ~ recognised bad ->
  exists pre' post',
    _unique_list_from seen (pre ++ bad :: post) = pre' ++ bad :: post' /\
    Forall recognised pre'.
Proof.
  revert seen. induction pre as [| x pre IH]; intros seen Hseen Hpre Hbad.
  - exists [], (_unique_list_from ({[ bad ]} ∪ seen) post). simpl.
    destruct (decide (bad ∈ seen)); [done |]. split; [done | constructor].
  - inversion Hpre as [| ? ? Hx Hpre']; subst. simpl.
    destruct (decide (x ∈ seen)).
    + by apply IH.
    + destruct (IH ({[ x ]} ∪ seen)) as (pre' & post' & Heq & Hpre''); [| done | done |].
      { intros [Heqx%elem_of_singleton | ?]%elem_of_union; [| done].
        subst. done. }
      exists (x :: pre'), post'. rewrite Heq. split; [done | by constructor].
Qed.

Section Serializers.

Variable P : Platform.

Lemma append_serializers_unrecognised (pre : list string) (bad : string)
    (post : list string) (serializers : list Serializer) :
  Forall recognised pre -> ~ recognised bad ->
  append_serializers P (pre ++ bad :: post) serializers = Raise (unknown_serializer bad).
Proof.
  revert serializers. induction pre as [| x pre IH]; intros serializers Hpre Hbad.
  - simpl. unfold recognised in Hbad.
    rewrite !bool_decide_eq_false_2; [done | |]; intros ->; apply Hbad.
    + apply list_elem_of_further, list_elem_of_here.
    + apply list_elem_of_here.
  - inversion Hpre as [| ? ? Hx Hpre']; subst. simpl.
    destruct (bool_decide (x = "msgpack")) eqn:Hmsgpack; [by apply IH |].
    destruct (bool_decide (x = "json")) eqn:Hjson; [by apply IH |].
    exfalso. unfold recognised in Hx.
    apply bool_decide_eq_false in Hmsgpack, Hjson.
    apply elem_of_cons in Hx as [? | Hx]; [done |].
    apply elem_of_cons in Hx as [? | Hx]; [done |].
    by apply elem_of_nil in Hx.
Qed.

Lemma create_transport_serializers_unrecognised (transport_config : TransportConfig)
    (ids : list string) :
  tc_serializers transport_config = Some ids ->
  (exists id, id ∈ ids /\ ~ recognised id) ->
  exists pre bad post,
    ids = pre ++ bad :: post /\ Forall recognised pre /\ ~ recognised bad /\
    _create_transport_serializers P transport_config = Raise (unknown_serializer bad).
Proof.
  intros Hids Hex.
  destruct (first_unrecognised ids Hex) as (pre & bad & post & -> & Hpre & Hbad).
  exists pre, bad, post. repeat (split; [done |]).
  unfold _create_transport_serializers, _unique_list. rewrite Hids.
  destruct (unique_list_keeps_first_unrecognised ∅ pre bad post) as (pre' & post' & -> & Hpre');
    [set_solver | done | done |].
  by apply append_serializers_unrecognised.
Qed.

End Serializers.

(** C9: when the [serializers] of a websocket transport name an id
    that is not recognised, building the serializer set raises
    [Unknown serializer] for the first such id; every connection
    attempt on that transport therefore raises it, and the turn that
    makes the attempt leaves [start] by that error instead of going
    round again. *)
Theorem unknown_serializer_is_terminal (P : Platform) (w : World) (g : Engine)
    (t : Transport) (ids : list string) :
  transports g !! (cursor g mod length (transports g)) = Some t ->
  can_reconnect t = true ->
  tc_type (config t) = Some "websocket" ->
  tc_serializers (config t) = Some ids ->
  (exists id, id ∈ ids /\ ~ recognised id) ->
  exists pre bad post,
    ids = pre ++ bad :: post /\ Forall recognised pre /\ ~ recognised bad /\
    _create_transport_serializers P (config t) = Raise (unknown_serializer bad) /\
    (forall k, _connect_once P w k t = Raise (unknown_serializer bad)) /\
    forall fuel, exists g',
      reconnect_loop P w (S fuel) g = (Raised (unknown_serializer bad), g') /\
      attempts (trace g') = attempts (trace g) ++ [idx t].
Proof.
  intros Hlook Hcan Hty Hids Hex.
  destruct (create_transport_serializers_unrecognised P (config t) ids Hids Hex)
    as (pre & bad & post & Hsplit & Hpre & Hbad & Hraise).
  exists pre, bad, post. repeat (split; [done |]).
  assert (forall k, _connect_once P w k t = Raise (unknown_serializer bad)) as Honce.
  { intros k. unfold _connect_once, _connect_transport, _create_transport_factory.
    rewrite Hty. simpl. by rewrite Hraise. }
  split; [exact Honce |].
  apply other_failure_propagates; try done.
  unfold _is_ssl_error. by destruct (_TLS P).
Qed.

Lemma unknown_serializer_is_terminal_witness :
  let ids := ["json"; "cbor"; "json"; "ubjson"] in
  let t := descriptor 0 (websocket_over (Some ids) (tcp_endpoint None None)) None in
  let g := {| transports := [t]; cursor := 0; trace := [] |} in
  let w := always (Ret tt) in
  transports g !! (cursor g mod length (transports g)) = Some t /\
  can_reconnect t = true /\
  tc_type (config t) = Some "websocket" /\
  tc_serializers (config t) = Some ids /\
  (exists id, id ∈ ids /\ ~ recognised id) /\
  exists pre bad post,
    ids = pre ++ bad :: post /\ Forall recognised pre /\ ~ recognised bad /\
    _create_transport_serializers full_platform (config t) = Raise (unknown_serializer bad) /\
    (forall k, _connect_once full_platform w k t = Raise (unknown_serializer bad)) /\
    forall fuel, exists g',
      reconnect_loop full_platform w (S fuel) g = (Raised (unknown_serializer bad), g') /\
      attempts (trace g') = attempts (trace g) ++ [idx t].
Proof.
  cbv zeta.
  assert (exists id, id ∈ ["json"; "cbor"; "json"; "ubjson"] /\ ~ recognised id) as Hex.
  { exists "cbor". split; [apply list_elem_of_further, list_elem_of_here |].
    unfold recognised. intros Hin.
    apply elem_of_cons in Hin as [Heq | Hin]; [discriminate Heq |].
    apply elem_of_cons in Hin as [Heq | Hin]; [discriminate Heq |].
    by apply elem_of_nil in Hin. }
  split; [reflexivity |]. split; [reflexivity |]. split; [reflexivity |].
  split; [reflexivity |]. split; [exact Hex |].
  exact (unknown_serializer_is_terminal full_platform (always (Ret tt))
           {| transports :=
                [descriptor 0 (websocket_over (Some ["json"; "cbor"; "json"; "ubjson"])
                                 (tcp_endpoint None None)) None];
              cursor := 0; trace := [] |}
           (descriptor 0 (websocket_over (Some ["json"; "cbor"; "json"; "ubjson"])
                            (tcp_endpoint None None)) None)
           ["json"; "cbor"; "json"; "ubjson"]
           eq_refl eq_refl eq_refl eq_refl Hex).
Defined.

(** The serializer set of the sample run, evaluated. *)
Lemma unknown_serializer_example :
  _create_transport_serializers full_platform
    (websocket_over (Some ["json"; "cbor"; "json"; "ubjson"]) (tcp_endpoint None None))
  = Raise (RuntimeError "Unknown serializer 'cbor'") /\
  _create_transport_serializers full_platform
    (websocket_over (Some ["json"; "msgpack"; "json"]) (tcp_endpoint None None))
  = Ret [JsonSerializer true; JsonSerializer false;
         MsgPackSerializer true; MsgPackSerializer false] /\
  (start full_platform (always (Ret tt)) 3
     [descriptor 0 (websocket_over (Some ["json"; "cbor"]) (tcp_endpoint None None)) None;
      descriptor 1 plain_config None]).1
  = Raised (RuntimeError "Unknown serializer 'cbor'").
Proof. repeat split; vm_compute; reflexivity. Qed.

(** ** Arguments of [_run] *)

Lemma check_items_rejects (items : list PyObject) :
  (exists o, o ∈ items /\ is_component o = false) ->
  exists msg, check_items items = Raise (ValueError msg).
Proof.
  induction items as [| o items IH]; intros (o' & Hin & Ho').
  - by apply elem_of_nil in Hin.
  - destruct o as [c | items' | type_name]; simpl.
    + apply elem_of_cons in Hin as [-> | Hin]; [discriminate Ho' |].
      destruct IH as [msg ->]; [by exists o' |]. by eexists.
    + by eexists.
    + by eexists.
Qed.

(** C10: when [components] is neither a [Component] nor a list, or is
    a list with an item that is not a [Component], [_run] raises a
    [ValueError] and has started no component. *)
Theorem run_rejects_non_components (start_of : Component -> Deferred)
    (components : PyObject) :
  (exists type_name, components = AnObject type_name) \/
  (exists items, components = AList items /\
                 exists o, o ∈ items /\ is_component o = false) ->
  exists msg s,
    _run start_of components = (Raise (ValueError msg), s) /\
    started s = [] /\ dl s = [].
Proof.
  intros [[type_name ->] | (items & -> & Hitems)]; unfold _run, check_components.
  - by eexists _, _.
  - destruct (check_items_rejects items Hitems) as [msg ->]. by eexists _, _.
Qed.

Lemma run_rejects_non_components_witness :
  let c := {| component_name := "backend"; _transports := [descriptor 0 plain_config None] |} in
  let components := AList [AComponent c; AnObject "str"; AComponent c] in
  ((exists type_name, components = AnObject type_name) \/
   (exists items, components = AList items /\
                  exists o, o ∈ items /\ is_component o = false)) /\
  exists msg s,
    _run (fun _ => Fired (Ret tt)) components = (Raise (ValueError msg), s) /\
    started s = [] /\ dl s = [].
Proof.
  cbv zeta.
  set (c := {| component_name := "backend"; _transports := [descriptor 0 plain_config None] |}).
  assert ((exists type_name, AList [AComponent c; AnObject "str"; AComponent c] = AnObject type_name) \/
          (exists items, AList [AComponent c; AnObject "str"; AComponent c] = AList items /\
                         exists o, o ∈ items /\ is_component o = false)) as Hbad.
  { right. eexists. split; [reflexivity |].
    exists (AnObject "str"). split; [| reflexivity].
    apply list_elem_of_further, list_elem_of_here. }
  split; [exact Hbad |].
  exact (run_rejects_non_components (fun _ => Fired (Ret tt)) _ Hbad).
Defined.

(** ** The supervisor *)

Lemma check_components_list (cs : list Component) :
  check_components (AList (AComponent <$> cs)) = Ret cs.
Proof.
  unfold check_components. induction cs as [| c cs IH]; [done |].
  csimpl. by rewrite IH.
Qed.

Lemma component_callbacks_result (c : Component) (r : Res unit) :
  (component_callbacks c r).2 = Ret tt.
Proof. by destruct r as [[] | f]. Qed.

Lemma slot_settled (c : Component) (d : Deferred) :
  slot c d = Pending \/ slot c d = Fired (Ret tt).
Proof.
  destruct d as [| r]; [by left |]. right. simpl.
  by rewrite component_callbacks_result.
Qed.

Lemma has_fired_slot (c : Component) (d : Deferred) :
  has_fired (slot c d) = has_fired d.
Proof. by destruct d. Qed.

Lemma results_fired (ds : list Deferred) :
  is_Some (results ds) <-> forallb has_fired ds = true.
Proof.
  unfold results. induction ds as [| d ds IH]; [by split; [| eexists] |].
  destruct d as [| r]; csimpl.
  - split; [by intros [? ?] | done].
  - rewrite <- IH. destruct (mapM _ ds); csimpl; split; intros [? ?]; by eauto.
Qed.

Lemma pending_not_all_fired (ds : list Deferred) (i : nat) :
  ds !! i = Some Pending -> forallb has_fired ds = false.
Proof.
  revert i. induction ds as [| d ds IH]; intros [| i] Hlook; try done.
  - by injection Hlook as ->.
  - simpl in *. rewrite (IH i Hlook). apply andb_false_r.
Qed.

(** The gathered Deferred, looked at while it is still pending. *)
Lemma fire_when_complete_settled (s : RunState) :
  length (dl s) = length (started s) ->
  Forall (fun d => d = Pending \/ d = Fired (Ret tt)) (dl s) ->
  d_all_done s = Pending -> reactor_stops s = 0 ->
  settled_state (fire_when_complete s) /\
  started (fire_when_complete s) = started s /\
  dl (fire_when_complete s) = dl s /\
  log (fire_when_complete s) = log s.
Proof.
  intros Hlen Hok Hpending Hstops. unfold fire_when_complete, settled_state.
  rewrite Hpending.
  destruct (results (dl s)) as [res |] eqn:Hres.
  - assert (forallb has_fired (dl s) = true) as Hall
      by (apply results_fired; rewrite Hres; by eexists).
    destruct (completed res); simpl; rewrite Hall, Hstops; done.
  - assert (forallb has_fired (dl s) = false) as Hall.
    { apply not_true_is_false. intros Hall%results_fired.
      rewrite Hres in Hall. by destruct Hall. }
    rewrite Hall. done.
Qed.

Lemma start_components (start_of : Component -> Deferred) (cs : list Component)
    (s : RunState) :
  let s' := foldl start_component s ((fun c => (c, start_of c)) <$> cs) in
  started s' = started s ++ cs /\
  dl s' = dl s ++ ((fun c => slot c (start_of c)) <$> cs) /\
  d_all_done s' = d_all_done s /\
  reactor_stops s' = reactor_stops s.
Proof.
  revert s. induction cs as [| c cs IH]; intros s; cbv zeta.
  - simpl. by rewrite !app_nil_r.
  - rewrite !fmap_cons. cbn [foldl].
    destruct (IH (start_component s (c, start_of c))) as (Hs & Hdl & Hd & Hstops).
    rewrite Hs, Hdl, Hd, Hstops. unfold start_component, slot.
    destruct (start_of c) as [| r]; [| destruct (component_callbacks c r) as [logs r']];
      simpl; by rewrite <- !app_assoc.
Qed.

Lemma settle_settled (s : RunState) (ev : nat * Res unit) :
  settled_state s ->
  settled_state (settle s ev) /\
  started (settle s ev) = started s /\
  (forall i d, dl s !! i = Some d ->
     exists d', dl (settle s ev) !! i = Some d' /\
                has_fired d' = has_fired d || bool_decide (i = ev.1)).
Proof.
  intros (Hlen & Hok & Hdone & Hstops). destruct ev as [j r]. unfold settle.
  assert (forall i d, dl s !! i = Some d -> has_fired d = true ->
            exists d', dl s !! i = Some d' /\
                       has_fired d' = has_fired d || bool_decide (i = (j, r).1)) as Hkeep.
  { intros i d Hi Hd. exists d. split; [done |]. by rewrite Hd. }
  destruct (dl s !! j) as [[| rj] |] eqn:Hj.
  - destruct (lookup_lt_is_Some_2 (started s) j) as [c Hc].
    { rewrite <- Hlen. by eapply lookup_lt_Some. }
    rewrite Hc. destruct (component_callbacks c r) as [logs r'] eqn:Hcb.
    assert (r' = Ret tt) as ->.
    { pose proof (component_callbacks_result c r) as Hr. by rewrite Hcb in Hr. }
    pose proof (pending_not_all_fired _ _ Hj) as Hnot.
    rewrite Hnot in Hdone, Hstops.
    set (s1 := {| started := started s; dl := <[j := Fired (Ret tt)]> (dl s);
                  log := log s ++ logs; reactor_stops := reactor_stops s;
                  d_all_done := d_all_done s |}).
    destruct (fire_when_complete_settled s1) as (Hsettled & Hstarted & Hdl & _).
    { simpl. by rewrite length_insert. }
    { simpl. apply Forall_insert; [done | by right]. }
    { done. }
    { done. }
    split; [done |]. split; [done |].
    intros i d Hi. rewrite Hdl. simpl.
    destruct (decide (i = j)) as [-> | Hne].
    + exists (Fired (Ret tt)). split.
      * apply list_lookup_insert_eq. by eapply lookup_lt_Some.
      * rewrite bool_decide_eq_true_2 by done. by rewrite orb_true_r.
    + exists d. split.
      * by rewrite list_lookup_insert_ne.
      * rewrite bool_decide_eq_false_2 by done. by rewrite orb_false_r.
  - split; [done |]. split; [done |].
    intros i d Hi. simpl. destruct (decide (i = j)) as [-> | Hne].
    + apply Hkeep; [done |]. rewrite Hj in Hi. by injection Hi as <-.
    + exists d. split; [done |].
      rewrite bool_decide_eq_false_2 by done. by rewrite orb_false_r.
  - split; [done |]. split; [done |].
    intros i d Hi. simpl. exists d. split; [done |].
    rewrite bool_decide_eq_false_2; [by rewrite orb_false_r |].
    intros ->. by rewrite Hj in Hi.
Qed.

Lemma settle_failure_logged (s : RunState) (i : nat) (f : Exn) :
  settled_state s -> dl s !! i = Some Pending ->
  log (settle s (i, Raise f)) = log s ++ [LogError "Component error"] /\
  dl (settle s (i, Raise f)) !! i = Some (Fired (Ret tt)).
Proof.
  intros (Hlen & Hok & Hdone & Hstops) Hi. unfold settle. rewrite Hi.
  destruct (lookup_lt_is_Some_2 (started s) i) as [c Hc].
  { rewrite <- Hlen. by eapply lookup_lt_Some. }
  rewrite Hc. simpl.
  rewrite (pending_not_all_fired _ _ Hi) in Hdone, Hstops.
  match goal with
  | |- context [fire_when_complete ?s1] =>
      destruct (fire_when_complete_settled s1) as (_ & _ & Hdl1 & Hlog1)
  end.
  - simpl. by rewrite length_insert.
  - simpl. apply Forall_insert; [done | by right].
  - done.
  - done.
  - rewrite Hdl1, Hlog1. simpl. split; [done |].
    apply list_lookup_insert_eq. by eapply lookup_lt_Some.
Qed.

Lemma settle_all_settled (evs : list (nat * Res unit)) (s : RunState) :
  settled_state s ->
  settled_state (foldl settle s evs) /\
  started (foldl settle s evs) = started s /\
  (forall i d, dl s !! i = Some d ->
     exists d', dl (foldl settle s evs) !! i = Some d' /\
                has_fired d' = has_fired d || bool_decide (i ∈ evs.*1)).
Proof.
  revert s. induction evs as [| ev evs IH]; intros s Hs.
  - split; [done |]. split; [done |]. intros i d Hi. exists d. split; [done |].
    rewrite bool_decide_eq_false_2; [by rewrite orb_false_r | by apply not_elem_of_nil].
  - destruct (settle_settled s ev Hs) as (Hs1 & Hstarted1 & Hdl1).
    destruct (IH (settle s ev) Hs1) as (Hs2 & Hstarted2 & Hdl2).
    simpl. split; [done |]. split; [congruence |].
    intros i d Hi.
    destruct (Hdl1 i d Hi) as (d1 & Hi1 & Hfired1).
    destruct (Hdl2 i d1 Hi1) as (d2 & Hi2 & Hfired2).
    exists d2. split; [done |]. rewrite Hfired2, Hfired1, <- orb_assoc. f_equal.
    csimpl. destruct (decide (i = ev.1)) as [-> | Hne].
    + rewrite (bool_decide_eq_true_2 (ev.1 = ev.1)) by done. simpl.
      symmetry. apply bool_decide_eq_true_2, list_elem_of_here.
    + rewrite (bool_decide_eq_false_2 (i = ev.1)) by done. simpl.
      apply bool_decide_ext. rewrite elem_of_cons.
      split; [by right | by intros [? | ?]].
Qed.

Lemma run_settled (start_of : Component -> Deferred) (cs : list Component) :
  let r := _run start_of (AList (AComponent <$> cs)) in
  r.1 = Ret tt /\ settled_state r.2 /\ started r.2 = cs /\
  dl r.2 = (fun c => slot c (start_of c)) <$> cs.
Proof.
  cbv zeta. unfold _run. rewrite check_components_list. simpl.
  destruct (start_components start_of cs idle) as (Hstarted & Hdl & Hdone & Hstops).
  simpl in Hstarted, Hdl, Hdone, Hstops.
  destruct (fire_when_complete_settled
              (foldl start_component idle ((fun c => (c, start_of c)) <$> cs)))
    as (Hsettled & Hstarted' & Hdl' & _).
  - by rewrite Hstarted, Hdl, length_fmap.
  - rewrite Hdl. apply Forall_fmap, Forall_forall. intros c _. apply slot_settled.
  - done.
  - done.
  - split; [done |]. split; [done |]. split; congruence.
Qed.

(** C6: for a list of components, [_run] raises nothing; a
    component's slot of [dl] has fired exactly when its [start] has
    settled, at once or by a later event, and then holds a success,
    whatever [start] ended with; the Deferred that [_run] returns has
    fired, with a success, and the reactor has been stopped, once,
    exactly when every slot has fired; and a [start] that settles with
    a failure is logged as a component error. *)
Theorem supervisor_waits_for_all (start_of : Component -> Deferred)
    (cs : list Component) (evs : list (nat * Res unit)) :
  let r := _run start_of (AList (AComponent <$> cs)) in
  let s := foldl settle r.2 evs in
  r.1 = Ret tt /\
  started s = cs /\
  length (dl s) = length cs /\
  (forall i c, cs !! i = Some c ->
     exists d, dl s !! i = Some d /\
               (d = Pending \/ d = Fired (Ret tt)) /\
               has_fired d = has_fired (start_of c) || bool_decide (i ∈ evs.*1)) /\
  d_all_done s = (if forallb has_fired (dl s) then Fired (Ret tt) else Pending) /\
  reactor_stops s = (if forallb has_fired (dl s) then 1 else 0) /\
  (forall i f, dl s !! i = Some Pending ->
     log (settle s (i, Raise f)) = log s ++ [LogError "Component error"] /\
     dl (settle s (i, Raise f)) !! i = Some (Fired (Ret tt))).
Proof.
  cbv zeta.
  destruct (run_settled start_of cs) as (Hret & Hs0 & Hstarted0 & Hdl0).
  destruct (settle_all_settled evs _ Hs0) as (Hs & Hstarted & Hdl).
  pose proof Hs as (Hlen & Hok & Hdone & Hstops).
  split; [done |]. split; [congruence |]. split; [congruence |].
  split; [| split; [done | split; [done |]]].
  - intros i c Hc.
    destruct (Hdl i (slot c (start_of c))) as (d & Hd & Hfired).
    { by rewrite Hdl0, list_lookup_fmap, Hc. }
    exists d. split; [done |]. split.
    + rewrite Forall_forall in Hok. apply Hok. by eapply list_elem_of_lookup_2.
    + by rewrite Hfired, has_fired_slot.
  - intros i f Hi. by apply settle_failure_logged.
Qed.

(** Three components: the first has settled when [_run] returns, the
    third fails later and the second succeeds last; the reactor is
    stopped with the last of them. *)
Lemma supervisor_example :
  let c := fun name => {| component_name := name; _transports := [] |} in
  let start_of := fun x =>
    if bool_decide (component_name x = "a") then Fired (Ret tt) else Pending in
  let s0 := (_run start_of (AList [AComponent (c "a"); AComponent (c "b");
                                   AComponent (c "c")])).2 in
  let s1 := settle s0 (2, Raise no_such_realm) in
  let s2 := settle s1 (1, Ret tt) in
  (dl s0, reactor_stops s0, d_all_done s0) = ([Fired (Ret tt); Pending; Pending], 0, Pending) /\
  (dl s1, reactor_stops s1, d_all_done s1)
    = ([Fired (Ret tt); Pending; Fired (Ret tt)], 0, Pending) /\
  log s1 = [LogError "Component error"] /\
  (dl s2, reactor_stops s2, d_all_done s2)
    = ([Fired (Ret tt); Fired (Ret tt); Fired (Ret tt)], 1, Fired (Ret tt)).
Proof. cbv zeta. repeat split; reflexivity. Qed.

(** * Further properties *)

(** ** [_unique_list] *)

Lemma unique_list_from_spec (seen : gset string) (seq : list string) :
  NoDup (_unique_list_from seen seq) /\
  (forall x, x ∈ _unique_list_from seen seq <-> x ∈ seq /\ x ∉ seen) /\
  sublist (_unique_list_from seen seq) seq.
Proof.
  revert seen. induction seq as [| y seq IH]; intros seen.
  - split; [constructor |]. split; [| constructor].
    intros x. simpl. rewrite elem_of_nil. tauto.
  - simpl. destruct (decide (y ∈ seen)) as [Hy | Hy].
    + destruct (IH seen) as (Hnodup & Hmem & Hsub).
      split; [done |]. split; [| by apply sublist_cons].
      intros x. rewrite Hmem, elem_of_cons.
      split; [tauto |]. intros [[-> | Hx] Hseen]; tauto.
    + destruct (IH ({[ y ]} ∪ seen)) as (Hnodup & Hmem & Hsub).
      split; [| split; [| by apply sublist_skip]].
      * constructor; [| done]. rewrite Hmem, elem_of_union, elem_of_singleton. tauto.
      * intros x. rewrite !elem_of_cons, Hmem, elem_of_union, elem_of_singleton.
        split.
        -- intros [-> | [Hx Hnot]]; tauto.
        -- intros [[-> | Hx] Hseen]; [tauto |].
           destruct (decide (x = y)); tauto.
Qed.

(** X1: [_unique_list] returns a list without duplicates that has
    the elements of its argument and keeps them in the order of the
    argument. *)
Theorem unique_list_nodup_same_elements (seq : list string) :
  NoDup (_unique_list seq) /\
  (forall x, x ∈ _unique_list seq <-> x ∈ seq) /\
  sublist (_unique_list seq) seq.
Proof.
  destruct (unique_list_from_spec ∅ seq) as (Hnodup & Hmem & Hsub).
  split; [done |]. split; [| done].
  intros x. rewrite (Hmem x). split; [tauto |]. intros Hx. split; [done |].
  apply not_elem_of_empty.
Qed.

Lemma unique_list_from_snoc (seen : gset string) (seq : list string) (x : string) :
  _unique_list_from seen (seq ++ [x]) =
    _unique_list_from seen seq ++
    (if decide (x ∈ seen \/ x ∈ seq) then [] else [x]).
Proof.
  revert seen. induction seq as [| y seq IH]; intros seen.
  - simpl. destruct (decide (x ∈ seen)) as [Hx | Hx].
    + rewrite decide_True; [done | by left].
    + rewrite decide_False; [done |]. intros [? | Hin]; [done |].
      by apply elem_of_nil in Hin.
  - simpl. destruct (decide (y ∈ seen)) as [Hy | Hy].
    + rewrite IH. f_equal. apply decide_ext. rewrite elem_of_cons.
      split; [tauto |]. intros [? | [-> | ?]]; tauto.
    + rewrite IH. simpl. do 2 f_equal. apply decide_ext.
      rewrite elem_of_cons, elem_of_union, elem_of_singleton. tauto.
Qed.

(** X2: it is the first occurrence of an element that [_unique_list]
    keeps: an element added at the end of the sequence is dropped when
    it occurred before, and is added at the end of the result when it
    did not. *)
Theorem unique_list_keeps_first_occurrence (seq : list string) (x : string) :
  _unique_list (seq ++ [x]) =
    if decide (x ∈ seq) then _unique_list seq else _unique_list seq ++ [x].
Proof.
  unfold _unique_list. rewrite unique_list_from_snoc.
  destruct (decide (x ∈ seq)) as [Hx | Hx].
  - rewrite decide_True; [by rewrite app_nil_r | by right].
  - rewrite decide_False; [done |]. intros [Hin | ?]; [| done].
    by apply not_elem_of_empty in Hin.
Qed.

(** ** Serializer sets *)

Lemma append_serializers_recognised (P : Platform) (serializer_ids : list string)
    (serializers : list Serializer) :
  Forall recognised serializer_ids ->
  append_serializers P serializer_ids serializers =
    Ret (serializers ++ flat_map (serializers_for P) serializer_ids).
Proof.
  revert serializers.
  induction serializer_ids as [| x ids IH]; intros serializers Hall.
  - simpl. by rewrite app_nil_r.
  - inversion Hall as [| ? ? Hx Hids]; subst. simpl. unfold serializers_for at 1.
    destruct (bool_decide (x = "msgpack")) eqn:Hmsgpack.
    + rewrite (IH _ Hids). destruct (has_MsgPackSerializer P); [| done].
      by rewrite <- app_assoc.
    + destruct (bool_decide (x = "json")) eqn:Hjson.
      * rewrite (IH _ Hids). destruct (has_JsonSerializer P); [| done].
        by rewrite <- app_assoc.
      * exfalso. unfold recognised in Hx.
        apply bool_decide_eq_false in Hmsgpack, Hjson.
        apply elem_of_cons in Hx as [? | Hx]; [done |].
        apply elem_of_cons in Hx as [? | Hx]; [done |].
        by apply elem_of_nil in Hx.
Qed.

Lemma recognised_cases (x : string) : recognised x -> x = "msgpack" \/ x = "json".
Proof.
  unfold recognised. intros Hx.
  apply elem_of_cons in Hx as [? | Hx]; [by left |].
  apply elem_of_cons in Hx as [? | Hx]; [by right |].
  by apply elem_of_nil in Hx.
Qed.

(** A list of recognised ids without duplicates is one of five. *)
Lemma nodup_recognised (ids : list string) :
  NoDup ids -> Forall recognised ids ->
  ids = [] \/ ids = ["msgpack"] \/ ids = ["json"] \/
  ids = ["msgpack"; "json"] \/ ids = ["json"; "msgpack"].
Proof.
  intros Hnodup Hall.
  destruct ids as [| a [| b [| c ids]]].
  - by left.
  - inversion Hall as [| ? ? Ha _]; subst.
    destruct (recognised_cases a Ha) as [-> | ->]; auto.
  - inversion Hall as [| ? ? Ha Hall']; subst.
    inversion Hall' as [| ? ? Hb _]; subst.
    apply NoDup_cons in Hnodup as [Hab _].
    rewrite list_elem_of_singleton in Hab.
    destruct (recognised_cases a Ha) as [-> | ->],
             (recognised_cases b Hb) as [-> | ->]; auto; done.
  - exfalso.
    inversion Hall as [| ? ? Ha Hall']; subst.
    inversion Hall' as [| ? ? Hb Hall'']; subst.
    inversion Hall'' as [| ? ? Hc _]; subst.
    apply NoDup_cons in Hnodup as [Ha' Hnodup].
    apply NoDup_cons in Hnodup as [Hb' _].
    rewrite !elem_of_cons in Ha'. rewrite elem_of_cons in Hb'.
    destruct (recognised_cases a Ha) as [-> | ->],
             (recognised_cases b Hb) as [-> | ->],
             (recognised_cases c Hc) as [-> | ->]; tauto.
Qed.

Lemma unique_list_recognised (ids : list string) :
  Forall recognised ids -> Forall recognised (_unique_list ids).
Proof.
  rewrite !Forall_forall. intros Hall x Hx. apply Hall.
  by apply (unique_list_from_spec ∅ ids) in Hx as [Hx _].
Qed.

Lemma default_serializers_unique : _unique_list ["msgpack"; "json"] = ["msgpack"; "json"].
Proof. by vm_compute. Qed.

(** X3: when every configured serializer id is recognised (and by
    default), [_create_transport_serializers] raises nothing: it
    returns, for each id in the order of first occurrence, the batched
    and then the plain serializer of that id if its library could be
    imported, so no serializer twice and at most four, and none at all
    when neither library is there. *)
Theorem serializer_set_of_recognised_ids (P : Platform) (transport_config : TransportConfig) :
  Forall recognised (configured_serializers transport_config) ->
  _create_transport_serializers P transport_config =
    Ret (flat_map (serializers_for P) (_unique_list (configured_serializers transport_config))) /\
  NoDup (flat_map (serializers_for P) (_unique_list (configured_serializers transport_config))) /\
  length (flat_map (serializers_for P) (_unique_list (configured_serializers transport_config)))
    <= 4.
Proof.
  intros Hall. split.
  - unfold _create_transport_serializers, configured_serializers in *.
    destruct (tc_serializers transport_config) as [ids |]; cbn [default from_option] in *.
    + by rewrite (append_serializers_recognised P _ [] (unique_list_recognised ids Hall)).
    + rewrite default_serializers_unique.
      by rewrite (append_serializers_recognised P _ [] Hall).
  - pose proof (unique_list_recognised _ Hall) as Hrec.
    destruct (unique_list_from_spec ∅ (configured_serializers transport_config))
      as (Hnodup & _ & _).
    fold (_unique_list (configured_serializers transport_config)) in Hnodup.
    destruct (nodup_recognised _ Hnodup Hrec) as [-> | [-> | [-> | [-> | ->]]]];
      unfold serializers_for; simpl;
      destruct (has_MsgPackSerializer P), (has_JsonSerializer P); simpl;
      (split; [apply (bool_decide_unpack _); by vm_compute | lia]).
Qed.

Lemma serializer_set_of_recognised_ids_witness :
  let cfg := websocket_over (Some ["json"; "msgpack"; "json"]) (tcp_endpoint None None) in
  Forall recognised (configured_serializers cfg) /\
  _create_transport_serializers full_platform cfg =
    Ret (flat_map (serializers_for full_platform) (_unique_list (configured_serializers cfg))) /\
  NoDup (flat_map (serializers_for full_platform) (_unique_list (configured_serializers cfg))) /\
  length (flat_map (serializers_for full_platform) (_unique_list (configured_serializers cfg)))
    <= 4.
Proof.
  cbv zeta.
  assert (Forall recognised
            (configured_serializers
               (websocket_over (Some ["json"; "msgpack"; "json"]) (tcp_endpoint None None))))
    as Hall.
  { unfold configured_serializers, recognised. simpl.
    repeat constructor. }
  split; [exact Hall |].
  exact (serializer_set_of_recognised_ids full_platform _ Hall).
Defined.

Lemma append_serializers_error (P : Platform) (serializer_ids : list string)
    (serializers : list Serializer) (e : Exn) :
  append_serializers P serializer_ids serializers = Raise e ->
  exists bad, e = unknown_serializer bad /\ bad ∈ serializer_ids /\ ~ recognised bad.
Proof.
  revert serializers. induction serializer_ids as [| x ids IH]; intros serializers Hraise.
  - discriminate Hraise.
  - simpl in Hraise.
    destruct (bool_decide (x = "msgpack")) eqn:Hmsgpack.
    { destruct (IH _ Hraise) as (bad & ? & ? & ?). exists bad.
      split; [done |]. split; [by apply list_elem_of_further | done]. }
    destruct (bool_decide (x = "json")) eqn:Hjson.
    { destruct (IH _ Hraise) as (bad & ? & ? & ?). exists bad.
      split; [done |]. split; [by apply list_elem_of_further | done]. }
    injection Hraise as <-. exists x.
    split; [done |]. split; [apply list_elem_of_here |].
    apply bool_decide_eq_false in Hmsgpack, Hjson.
    intros [? | ?]%recognised_cases; done.
Qed.

Lemma create_transport_serializers_error (P : Platform) (transport_config : TransportConfig)
    (e : Exn) :
  _create_transport_serializers P transport_config = Raise e ->
  exists bad,
    e = unknown_serializer bad /\
    bad ∈ configured_serializers transport_config /\ ~ recognised bad.
Proof.
  unfold _create_transport_serializers, configured_serializers. intros Hraise.
  apply append_serializers_error in Hraise as (bad & He & Hin & Hbad).
  exists bad. split; [done |]. split; [| done].
  destruct (tc_serializers transport_config) as [ids |]; simpl; [| done].
  by apply (unique_list_from_spec ∅ ids) in Hin as [Hin _].
Qed.

(** X4: the one error [_create_transport_serializers] can raise is
    the [RuntimeError] that names a configured id that is not
    recognised; it raises it exactly when there is such an id. *)
Theorem serializer_set_fails_only_on_unknown_id (P : Platform)
    (transport_config : TransportConfig) :
  (forall e, _create_transport_serializers P transport_config = Raise e ->
             exists bad, e = unknown_serializer bad /\
                         bad ∈ configured_serializers transport_config /\
                         ~ recognised bad) /\
  ((exists e, _create_transport_serializers P transport_config = Raise e) <->
   (exists bad, bad ∈ configured_serializers transport_config /\ ~ recognised bad)).
Proof.
  split; [apply create_transport_serializers_error |].
  split.
  - intros [e He]. apply create_transport_serializers_error in He as (bad & _ & ? & ?).
    by exists bad.
  - intros Hex. unfold configured_serializers in Hex.
    destruct (tc_serializers transport_config) as [ids |] eqn:Hids; simpl in Hex.
    + destruct (create_transport_serializers_unrecognised P transport_config ids Hids Hex)
        as (pre & bad & post & _ & _ & _ & Hraise).
      by eexists.
    + exfalso. destruct Hex as (bad & Hin & Hbad). by apply Hbad.
Qed.

(** X5: the two serializer builders agree on the ids both know: for
    [msgpack] and [json], [_create_transport_serializer] succeeds
    exactly when the set built for that id is not empty, that is when
    the library could be imported, and the serializer it returns is
    the plain member of that set. *)
Theorem single_serializer_agrees_with_set (P : Platform) (serializer_id : string) :
  recognised serializer_id ->
  match _create_transport_serializer P serializer_id with
  | Ret serializer =>
      serializers_for P serializer_id <> [] /\
      last (serializers_for P serializer_id) = Some serializer
  | Raise e =>
      serializers_for P serializer_id = [] /\ e = could_not_create serializer_id
  end.
Proof.
  intros [-> | ->]%recognised_cases;
    unfold _create_transport_serializer, serializers_for; simpl;
    destruct (has_MsgPackSerializer P), (has_JsonSerializer P); simpl; done.
Qed.

Lemma single_serializer_agrees_with_set_witness :
  recognised "json" /\
  match _create_transport_serializer full_platform "json" with
  | Ret serializer =>
      serializers_for full_platform "json" <> [] /\
      last (serializers_for full_platform "json") = Some serializer
  | Raise e =>
      serializers_for full_platform "json" = [] /\ e = could_not_create "json"
  end.
Proof.
  assert (recognised "json") as Hjson
    by (apply list_elem_of_further, list_elem_of_here).
  split; [exact Hjson |].
  exact (single_serializer_agrees_with_set full_platform "json" Hjson).
Defined.

(** ** Building a transport *)

Lemma create_transport_serializer_error (P : Platform) (serializer_id : string) (e : Exn) :
  _create_transport_serializer P serializer_id = Raise e ->
  e = could_not_create serializer_id.
Proof.
  unfold _create_transport_serializer. intros Hraise.
  repeat case_match; by simplify_eq.
Qed.

Lemma create_transport_factory_error (P : Platform) (transport_config : TransportConfig)
    (e : Exn) :
  _create_transport_factory P transport_config = Raise e ->
  is_configuration_error e = true.
Proof.
  unfold _create_transport_factory, getitem. intros Hraise.
  destruct (tc_type transport_config) as [ty |]; [| by simplify_eq/=].
  cbn [mbind Res_bind] in Hraise.
  destruct (bool_decide (ty = "websocket")).
  - destruct (_create_transport_serializers P transport_config) as [l | e'] eqn:Hser.
    + destruct (tc_url transport_config); by simplify_eq/=.
    + apply create_transport_serializers_error in Hser as (bad & -> & _).
      by simplify_eq/=.
  - destruct (bool_decide (ty = "rawsocket")); [| by simplify_eq/=].
    destruct (_create_transport_serializer P _) as [s | e'] eqn:Hser; [by simplify_eq/= |].
    apply create_transport_serializer_error in Hser as ->. by simplify_eq/=.
Qed.

Lemma create_transport_endpoint_error (P : Platform) (endpoint_config : EndpointConfig)
    (e : Exn) :
  _create_transport_endpoint P endpoint_config = Raise e ->
  is_configuration_error e = true.
Proof.
  unfold _create_transport_endpoint, tls_context, getitem. intros Hraise.
  repeat (case_match; simplify_eq/=); done.
Qed.

Lemma connect_transport_error (P : Platform) (transport_config : TransportConfig) (e : Exn) :
  _connect_transport P transport_config = Raise e ->
  is_configuration_error e = true.
Proof.
  unfold _connect_transport. intros Hraise.
  destruct (_create_transport_factory P transport_config) as [f | e'] eqn:Hfactory.
  - cbn [mbind Res_bind] in Hraise.
    destruct (tc_endpoint transport_config) as [epc |]; [| by simplify_eq/=].
    cbn [getitem mbind Res_bind] in Hraise.
    destruct (_create_transport_endpoint P epc) as [ep | e'] eqn:Hendpoint;
      [by simplify_eq/= |].
    cbn in Hraise. injection Hraise as <-.
    by eapply create_transport_endpoint_error.
  - cbn in Hraise. injection Hraise as <-.
    by eapply create_transport_factory_error.
Qed.

Lemma configuration_error_unclassified (P : Platform) (e : Exn) :
  is_configuration_error e = true ->
  is_ApplicationError e = false /\ _is_ssl_error P e = false /\ is_Exception e = true.
Proof.
  unfold _is_ssl_error. destruct e; try discriminate; by destruct (_TLS P).
Qed.

(** X6: for every configuration whose [version], [port] and
    [timeout] entries are integers, on every platform, the errors that
    building the factory, building the endpoint, and
    [_connect_transport] raise are a [RuntimeError], a [KeyError], a
    [TypeError] or an [AssertionError]: never an [ApplicationError]
    and never an SSL error. *)
Theorem building_raises_configuration_errors (P : Platform) (e : Exn) :
  (forall transport_config,
     _create_transport_factory P transport_config = Raise e \/
     _connect_transport P transport_config = Raise e ->
     is_configuration_error e = true /\
     is_ApplicationError e = false /\ _is_ssl_error P e = false) /\
  (forall endpoint_config,
     _create_transport_endpoint P endpoint_config = Raise e ->
     is_configuration_error e = true /\
     is_ApplicationError e = false /\ _is_ssl_error P e = false).
Proof.
  split.
  - intros transport_config [He | He].
    + apply create_transport_factory_error in He.
      destruct (configuration_error_unclassified P e He) as (? & ? & _). done.
    + apply connect_transport_error in He.
      destruct (configuration_error_unclassified P e He) as (? & ? & _). done.
  - intros endpoint_config He. apply create_transport_endpoint_error in He.
    destruct (configuration_error_unclassified P e He) as (? & ? & _). done.
Qed.

(** X7: an error raised while the transport is built ends [start]:
    when [_connect_transport] raises [e] for the configuration of the
    transport whose turn it is, the session is never awaited, whatever
    the network would have answered, the turn leaves [start] by [e],
    and the attempt is the last one. *)
Theorem configuration_error_ends_start (P : Platform) (w : World) (g : Engine)
    (t : Transport) (e : Exn) (fuel : nat) :
  transports g !! (cursor g mod length (transports g)) = Some t ->
  can_reconnect t = true ->
  _connect_transport P (config t) = Raise e ->
  exists g',
    reconnect_loop P w (S fuel) g = (Raised e, g') /\
    attempts (trace g') = attempts (trace g) ++ [idx t].
Proof.
  intros Hlook Hcan Hraise.
  destruct (configuration_error_unclassified P e (connect_transport_error P _ e Hraise))
    as (Happ & Hssl & _).
  apply other_failure_propagates; try done.
  unfold _connect_once. by rewrite Hraise.
Qed.

Lemma configuration_error_ends_start_witness :
  let cfg := {| tc_type := Some "websocket"; tc_url := None; tc_serializers := None;
                tc_serializer := None; tc_endpoint := None |} in
  let t := descriptor 0 cfg None in
  let g := {| transports := [t; descriptor 1 plain_config None]; cursor := 0; trace := [] |} in
  transports g !! (cursor g mod length (transports g)) = Some t /\
  can_reconnect t = true /\
  _connect_transport full_platform (config t) = Raise (KeyError "url") /\
  exists g',
    reconnect_loop full_platform (always (Ret tt)) 3 g = (Raised (KeyError "url"), g') /\
    attempts (trace g') = attempts (trace g) ++ [idx t].
Proof.
  cbv zeta. split; [reflexivity |]. split; [reflexivity |]. split; [reflexivity |].
  exact (configuration_error_ends_start full_platform (always (Ret tt))
           {| transports :=
                [descriptor 0 {| tc_type := Some "websocket"; tc_url := None;
                                 tc_serializers := None; tc_serializer := None;
                                 tc_endpoint := None |} None;
                 descriptor 1 plain_config None];
              cursor := 0; trace := [] |}
           _ (KeyError "url") 2 eq_refl eq_refl eq_refl).
Defined.

(** X8: [_connect_transport] builds the factory before it looks at
    the endpoint: an error of the factory is the error of the call
    whatever the endpoint is, a configuration without ["endpoint"]
    fails with that [KeyError] only once the factory is built, and the
    call succeeds exactly when both parts do. *)
Theorem connect_transport_builds_factory_first (P : Platform)
    (transport_config : TransportConfig) :
  (forall e, _create_transport_factory P transport_config = Raise e ->
             _connect_transport P transport_config = Raise e) /\
  (forall factory, _create_transport_factory P transport_config = Ret factory ->
                   tc_endpoint transport_config = None ->
                   _connect_transport P transport_config = Raise (KeyError "endpoint")) /\
  (forall endpoint factory,
     _connect_transport P transport_config = Ret (endpoint, factory) <->
     _create_transport_factory P transport_config = Ret factory /\
     exists endpoint_config,
       tc_endpoint transport_config = Some endpoint_config /\
       _create_transport_endpoint P endpoint_config = Ret endpoint).
Proof.
  unfold _connect_transport. split; [| split].
  - by intros e ->.
  - by intros factory -> ->.
  - intros endpoint factory.
    destruct (_create_transport_factory P transport_config) as [f | e]; cbn.
    + destruct (tc_endpoint transport_config) as [epc |]; cbn.
      * destruct (_create_transport_endpoint P epc) as [ep | e] eqn:Hep; cbn.
        -- split.
           ++ intros [= <- <-]. split; [done |]. by exists epc.
           ++ intros [[= <-] (epc' & [= <-] & Hep')]. rewrite Hep in Hep'.
              by injection Hep' as <-.
        -- split; [done |].
           intros [_ (epc' & [= <-] & Hep')]. by rewrite Hep in Hep'.
      * split; [done |]. by intros [_ (epc' & ? & _)].
    + split; [done |]. by intros [? _].
Qed.

(** ** Endpoints built from a dict *)

(** X9: an endpoint built from a dict is a TCP endpoint that uses
    TLS exactly when the ["tls"] entry is truthy, which takes TLS
    support and IP version 4; without TLS the version is 4, or 6 where
    [TCP6ClientEndpoint] exists.  For the type ["unix"] the result is
    the plain Unix socket endpoint of the path, and the ["tls"] entry
    is not looked at. *)
Theorem endpoint_of_dict (P : Platform) (d : EndpointDict) (endpoint : Endpoint) :
  _create_transport_endpoint P (EpDict d) = Ret endpoint ->
  (ep_type d = Some "tcp" /\
   is_ssl_endpoint endpoint = tls_requested d /\
   (tls_requested d = true -> _TLS P = true /\ default 4%Z (ep_version d) = 4%Z) /\
   (default 4%Z (ep_version d) = 4%Z \/
    default 4%Z (ep_version d) = 6%Z /\ has_TCP6ClientEndpoint P = true)) \/
  (ep_type d = Some "unix" /\
   exists path, ep_path d = Some path /\
                endpoint = UNIXClientEndpoint path (default 10%Z (ep_timeout d))).
Proof.
  unfold _create_transport_endpoint, tls_context, tls_requested, getitem.
  intros Hret.
  destruct (ep_type d) as [ty |]; [| discriminate Hret].
  cbn [mbind Res_bind] in Hret.
  destruct (bool_decide (ty = "tcp")) eqn:Htcp.
  - apply bool_decide_eq_true in Htcp as ->. left. split; [done |].
    destruct (ep_host d) as [host |]; [| discriminate Hret].
    destruct (ep_port d) as [port |]; [| discriminate Hret].
    cbn [mbind Res_bind] in Hret.
    destruct (truthy (default TlsNone (ep_tls d))) eqn:Htls.
    + destruct (_TLS P); [| discriminate Hret]. cbn [negb] in Hret.
      destruct (bool_decide (default 4%Z (ep_version d) = 4%Z)) eqn:Hv4.
      * apply bool_decide_eq_true in Hv4.
        destruct (default TlsNone (ep_tls d)) as [| [] | | | |];
          simplify_eq/=; (split; [done |]; split; [done | by left]).
      * exfalso.
        destruct (default TlsNone (ep_tls d)) as [| [] | | | |];
          destruct (bool_decide (default 4%Z (ep_version d) = 6%Z));
          by simplify_eq/=.
    + destruct (bool_decide (default 4%Z (ep_version d) = 4%Z)) eqn:Hv4.
      * apply bool_decide_eq_true in Hv4. simplify_eq/=.
        split; [done |]. split; [done | by left].
      * destruct (bool_decide (default 4%Z (ep_version d) = 6%Z)) eqn:Hv6;
          [| discriminate Hret].
        apply bool_decide_eq_true in Hv6.
        destruct (has_TCP6ClientEndpoint P); simplify_eq/=.
        split; [done |]. split; [done | by right].
  - destruct (bool_decide (ty = "unix")) eqn:Hunix; [| discriminate Hret].
    apply bool_decide_eq_true in Hunix as ->. right. split; [done |].
    destruct (ep_path d) as [path |]; [| discriminate Hret].
    simplify_eq/=. by exists path.
Qed.

Lemma endpoint_of_dict_witness :
  let d := tcp_endpoint None (Some (TlsBool true)) in
  _create_transport_endpoint full_platform (EpDict d)
    = Ret (SSL4ClientEndpoint "localhost" 8080 (optionsForClientTLS "localhost") 10) /\
  is_ssl_endpoint (SSL4ClientEndpoint "localhost" 8080 (optionsForClientTLS "localhost") 10)
    = tls_requested d.
Proof.
  cbv zeta.
  assert (_create_transport_endpoint full_platform
            (EpDict (tcp_endpoint None (Some (TlsBool true))))
          = Ret (SSL4ClientEndpoint "localhost" 8080 (optionsForClientTLS "localhost") 10))
    as Hret by reflexivity.
  split; [exact Hret |].
  destruct (endpoint_of_dict full_platform _ _ Hret) as [(_ & Hssl & _) | (Hunix & _)].
  - exact Hssl.
  - discriminate Hunix.
Defined.

(** X10: the check made at construction and the endpoint builder
    disagree both ways on a TCP endpoint.  A ["tls"] entry that is a
    non-empty dict passes [_check_native_endpoint], and every
    connection attempt then fails with a [RuntimeError]; a ["tls"]
    entry that is [None] is refused by the check, although the builder
    would make the plain TCP endpoint of it. *)
Theorem check_and_builder_disagree (P : Platform) (d : EndpointDict) (host : string)
    (port : Z) :
  ep_type d = Some "tcp" -> ep_host d = Some host -> ep_port d = Some port ->
  ep_version d = None ->
  (ep_tls d = Some (TlsDict true) ->
   _check_native_endpoint P (EpDict d) = Ret tt /\
   _create_transport_endpoint P (EpDict d)
     = Raise (if _TLS P then tls_unknown_type else tls_not_installed)) /\
  (ep_tls d = Some TlsNone -> _TLS P = true ->
   _check_native_endpoint P (EpDict d) = Raise tls_must_be /\
   _create_transport_endpoint P (EpDict d)
     = Ret (TCP4ClientEndpoint host port (default 10%Z (ep_timeout d)))).
Proof.
  intros Hty Hhost Hport Hversion.
  unfold _check_native_endpoint, _create_transport_endpoint, tls_context, getitem.
  rewrite Hty, Hhost, Hport, Hversion. split.
  - intros ->. split; [done |]. simpl. by destruct (_TLS P).
  - intros -> ->. done.
Qed.

Lemma check_and_builder_disagree_witness :
  let d := tcp_endpoint None (Some (TlsDict true)) in
  ep_type d = Some "tcp" /\ ep_host d = Some "localhost" /\ ep_port d = Some 8080%Z /\
  ep_version d = None /\ ep_tls d = Some (TlsDict true) /\
  _check_native_endpoint full_platform (EpDict d) = Ret tt /\
  _create_transport_endpoint full_platform (EpDict d) = Raise tls_unknown_type.
Proof.
  cbv zeta. do 5 (split; [reflexivity |]).
  exact (proj1 (check_and_builder_disagree full_platform
                  (tcp_endpoint None (Some (TlsDict true))) "localhost" 8080
                  eq_refl eq_refl eq_refl eq_refl) eq_refl).
Defined.

(** ** How [start] ends *)

Section Ending.

Variable P : Platform.
Variable w : World.

(** X11: a connection attempt that ends without an error ends
    [start]: the turn that made it leaves the loop, the generator
    returns, and no further attempt is made however long the loop is
    given. *)
Theorem successful_attempt_ends_start (g : Engine) (t : Transport) (fuel : nat) :
  transports g !! (cursor g mod length (transports g)) = Some t ->
  can_reconnect t = true ->
  _connect_once P w (length (attempts (trace g))) t = Ret tt ->
  reconnect_loop P w (S fuel) g =
    (Returned, emit [LogInfo "Component completed successfully"] (attempted g t)) /\
  attempts (trace (after P w (S fuel) g)) = attempts (trace g) ++ [idx t].
Proof.
  intros Hlook Hcan Hret.
  assert (reconnect_loop P w (S fuel) g =
            (Returned, emit [LogInfo "Component completed successfully"] (attempted g t)))
    as Hrun.
  { apply reconnect_loop_done; [| discriminate].
    by rewrite (loop_body_eligible P w g t Hlook Hcan), Hret. }
  split; [exact Hrun |].
  unfold after. rewrite Hrun. cbn [snd].
  rewrite attempts_emit, attempted_attempts. simpl. by rewrite app_nil_r.
Qed.

Lemma on_exception_exit (pos : nat) (t : Transport) (e e' : Exn) (g g' : Engine) :
  on_exception P pos t e g = (Raised e', g') ->
  e' = e /\ _is_ssl_error P e = false /\
  (forall error, e = ApplicationError error -> error = "wamp.error.no_such_realm").
Proof.
  unfold on_exception. intros Hexit.
  destruct e;
    try (destruct (_is_ssl_error P _) eqn:Hssl; [discriminate Hexit |];
         injection Hexit as <- _; by repeat split).
  - destruct (bool_decide (error ∈ ["wamp.error.no_such_realm"])) eqn:Hfatal;
      [| discriminate Hexit].
    injection Hexit as <- _. split; [done |]. split.
    + unfold _is_ssl_error. by destruct (_TLS P).
    + intros error' [= <-]. apply bool_decide_eq_true in Hfatal.
      by apply list_elem_of_singleton in Hfatal.
  - destruct (_is_ssl_error P (SSL_Error queue)) eqn:Hssl.
    + by destruct (foldl tls_failure (t, []) queue).
    + injection Hexit as <- _. by repeat split.
Qed.

Lemma on_exception_never_returns (pos : nat) (t : Transport) (e : Exn) (g g' : Engine) :
  on_exception P pos t e g <> (Returned, g').
Proof.
  unfold on_exception. intros Hexit.
  destruct e; try (destruct (_is_ssl_error P _); discriminate Hexit).
  - by destruct (bool_decide _).
  - destruct (_is_ssl_error P _); [| discriminate Hexit].
    by destruct (foldl tls_failure (t, []) queue).
Qed.

(** The ways one turn leaves the loop. *)
Lemma loop_body_exit (g g' : Engine) :
  (forall e, loop_body P w g = (Raised e, g') ->
     (transports g = [] /\ e = StopIteration) \/
     (exists t, _connect_once P w (length (attempts (trace g))) t = Raise e /\
                (is_Exception e = false \/
                 _is_ssl_error P e = false /\
                 forall error, e = ApplicationError error ->
                               error = "wamp.error.no_such_realm"))) /\
  (loop_body P w g = (Returned, g') ->
     (exists t, _connect_once P w (length (attempts (trace g))) t = Ret tt /\
                g' = emit [LogInfo "Component completed successfully"] (attempted g t)) \/
     (transports g <> [] /\ _can_reconnect g' = false /\ attempts (trace g') = attempts (trace g))).
Proof.
  destruct (transports g !! (cursor g mod length (transports g))) as [t |] eqn:Hlook.
  - destruct (can_reconnect t) eqn:Hcan.
    + rewrite (loop_body_eligible P w g t Hlook Hcan).
      destruct (_connect_once P w (length (attempts (trace g))) t) as [[] | e0] eqn:Honce.
      * split; [discriminate |]. intros [= <-]. left. by exists t.
      * destruct (is_Exception e0) eqn:Hexc.
        -- split.
           ++ intros e Hexit. apply on_exception_exit in Hexit as (-> & Hssl & Hfatal).
              right. exists t. split; [done |]. by right.
           ++ intros Hexit. by apply on_exception_never_returns in Hexit.
        -- split; [| discriminate]. intros e [= <- _]. right. exists t.
           split; [done | by left].
    + rewrite (loop_body_skipped P w g t Hlook Hcan).
      destruct (_can_reconnect g) eqn:Hsome; cbn [negb]; split; try discriminate.
      intros [= <-]. right. split; [| split].
      * intros Hnil. by rewrite Hnil in Hlook.
      * exact Hsome.
      * rewrite attempts_emit. simpl. by rewrite app_nil_r.
  - rewrite (loop_body_empty P w g Hlook). split; [| discriminate].
    intros e [= <- _]. left. split; [| done].
    destruct (transports g) as [| t ts] eqn:Hts; [done |].
    apply lookup_ge_None in Hlook. simpl in Hlook.
    pose proof (Nat.mod_upper_bound (cursor g) (S (length ts))). lia.
Qed.

(** The turn in which a finished loop ended. *)
Lemma reconnect_loop_last_turn (fuel : nat) (g g' : Engine) (st : Status) :
  reconnect_loop P w fuel g = (st, g') -> st <> Reconnect ->
  exists g1, loop_body P w g1 = (st, g') /\
             idx <$> transports g1 = idx <$> transports g.
Proof.
  revert g. induction fuel as [| fuel IH]; intros g Hrun Hst.
  - by injection Hrun as <- _.
  - simpl in Hrun.
    destruct (loop_body P w g) as [[| | e] g1] eqn:Hbody.
    + destruct (IH g1 Hrun Hst) as (g2 & Hlast & Hidx). exists g2. split; [done |].
      rewrite Hidx.
      destruct (reconnect_loop_frame P w 1 g) as [Hframe _].
      unfold after in Hframe. simpl in Hframe. rewrite Hbody in Hframe.
      by apply same_identity_idx.
    + injection Hrun as <- <-. by exists g.
    + injection Hrun as <- <-. by exists g.
Qed.

(** X12: [start] never fails with an SSL error nor with an
    [ApplicationError] other than [wamp.error.no_such_realm]: those
    are the failures the loop swallows.  When it returns, either its
    last connection attempt succeeded or no transport was left that
    can reconnect. *)
Theorem start_ends_in_three_ways (fuel : nat) (ts : list Transport) :
  let r := start P w fuel ts in
  (forall e, r.1 = Raised e -> _is_ssl_error P e = false) /\
  (forall error, r.1 = Raised (ApplicationError error) ->
     error = "wamp.error.no_such_realm") /\
  (r.1 = Returned ->
     (exists tr i, trace r.2 =
                     tr ++ [ConnectOnce i; LogInfo "Component completed successfully"]) \/
     (ts <> [] /\ _can_reconnect r.2 = false)).
Proof.
  cbv zeta. unfold start.
  set (g0 := {| transports := ts; cursor := 0; trace := [] |}).
  destruct (reconnect_loop P w fuel g0) as [st g'] eqn:Hrun. cbn [fst snd].
  split; [| split].
  - intros e ->.
    destruct (reconnect_loop_last_turn fuel g0 g' _ Hrun) as (g1 & Hlast & _); [done |].
    destruct (proj1 (loop_body_exit g1 g') e Hlast)
      as [[_ ->] | (t & _ & [Hexc | [Hssl _]])]; [| | done].
    + unfold _is_ssl_error. by destruct (_TLS P).
    + unfold _is_ssl_error. destruct e; try discriminate Hexc. by destruct (_TLS P).
  - intros error ->.
    destruct (reconnect_loop_last_turn fuel g0 g' _ Hrun) as (g1 & Hlast & _); [done |].
    destruct (proj1 (loop_body_exit g1 g') _ Hlast)
      as [[_ [=]] | (t & _ & [[=] | [_ Hfatal]])].
    by apply Hfatal.
  - intros ->.
    destruct (reconnect_loop_last_turn fuel g0 g' _ Hrun) as (g1 & Hlast & Hidx); [done |].
    destruct (proj2 (loop_body_exit g1 g') Hlast) as [(t & _ & ->) | (Hne & Hnone & _)].
    + left. exists (trace g1 ++ [Sleep (idx t) (next_delay t).1]), (idx t).
      unfold emit, attempted. simpl. by rewrite <- !app_assoc.
    + right. split; [| done]. simpl in Hidx. intros ->.
      by destruct (transports g1).
Qed.

End Ending.

Lemma successful_attempt_ends_start_witness :
  let t := descriptor 1 plain_config None in
  let g := {| transports := [descriptor 0 plain_config None; t]; cursor := 3;
              trace := [Sleep 0 1; ConnectOnce 0] |} in
  let w := always (Ret tt) in
  transports g !! (cursor g mod length (transports g)) = Some t /\
  can_reconnect t = true /\
  _connect_once full_platform w (length (attempts (trace g))) t = Ret tt /\
  reconnect_loop full_platform w 4 g =
    (Returned, emit [LogInfo "Component completed successfully"] (attempted g t)) /\
  attempts (trace (after full_platform w 4 g)) = attempts (trace g) ++ [idx t].
Proof.
  cbv zeta. split; [reflexivity |]. split; [reflexivity |]. split; [reflexivity |].
  exact (successful_attempt_ends_start full_platform (always (Ret tt))
           {| transports := [descriptor 0 plain_config None; descriptor 1 plain_config None];
              cursor := 3; trace := [Sleep 0 1; ConnectOnce 0] |}
           (descriptor 1 plain_config None) 3 eq_refl eq_refl eq_refl).
Defined.

(** ** Transports that cannot reconnect *)

Section Skipped.

Variable P : Platform.
Variable w : World.

Lemma loop_body_keeps_ineligible (g : Engine) (p : nat) (t : Transport) :
  transports g !! p = Some t -> can_reconnect t = false ->
  transports (loop_body P w g).2 !! p = Some t.
Proof.
  intros Hp Hcan.
  destruct (transports g !! (cursor g mod length (transports g))) as [t0 |] eqn:Hlook.
  - destruct (decide (p = cursor g mod length (transports g))) as [-> | Hne].
    + rewrite Hp in Hlook. injection Hlook as <-.
      rewrite (loop_body_skipped P w g t Hp Hcan).
      by destruct (negb (_can_reconnect g)).
    + destruct (loop_body_shape P w g t0 Hlook) as (t' & evs & st & -> & _).
      simpl. by rewrite list_lookup_insert_ne.
  - by rewrite (loop_body_empty P w g Hlook).
Qed.

Lemma after_keeps_ineligible (fuel : nat) (g : Engine) (p : nat) (t : Transport) :
  transports g !! p = Some t -> can_reconnect t = false ->
  transports (after P w fuel g) !! p = Some t.
Proof.
  revert g. induction fuel as [| fuel IH]; intros g Hp Hcan; [done |].
  pose proof (loop_body_keeps_ineligible g p t Hp Hcan) as Hstep.
  destruct (loop_body P w g) as [st g1] eqn:Hbody. simpl in Hstep.
  destruct (running_or_done st) as [-> | Hst].
  - rewrite (after_again P w fuel g g1 Hbody). by apply IH.
  - by rewrite (after_done P w fuel g g1 st Hbody Hst).
Qed.

(** X13: a transport that cannot reconnect is out of the cycle for
    good: however long the loop runs, its descriptor is left exactly
    as it is, and, the indices of the transports being distinct, none
    of the further connection attempts is made on it. *)
Theorem ineligible_transport_is_left_alone (fuel : nat) (g : Engine) (p : nat)
    (t : Transport) :
  transports g !! p = Some t -> can_reconnect t = false ->
  transports (after P w fuel g) !! p = Some t /\
  (NoDup (idx <$> transports g) ->
   exists new,
     attempts (trace (after P w fuel g)) = attempts (trace g) ++ new /\
     idx t ∉ new).
Proof.
  intros Hp Hcan. split; [by apply after_keeps_ineligible |].
  intros Hnodup. eexists. split; [apply reconnect_loop_order |].
  intros Hin. apply list_elem_of_omap in Hin as (j & _ & Hj).
  destruct (transports (after P w j g) !! ((cursor g + j) mod length (transports g)))
    as [t' |] eqn:Hlook; [| discriminate Hj].
  destruct (can_reconnect t') eqn:Hcan'; [| discriminate Hj].
  injection Hj as Hidx.
  destruct (reconnect_loop_frame P w j g) as [Hframe _].
  apply same_identity_idx in Hframe.
  assert ((idx <$> transports g) !! ((cursor g + j) mod length (transports g))
          = Some (idx t)) as Hat.
  { by rewrite <- Hframe, list_lookup_fmap, Hlook, <- Hidx. }
  assert ((idx <$> transports g) !! p = Some (idx t)) as Hatp
    by (by rewrite list_lookup_fmap, Hp).
  pose proof (NoDup_lookup _ _ _ _ Hnodup Hat Hatp) as Hpos.
  rewrite Hpos in Hlook.
  rewrite (after_keeps_ineligible j g p t Hp Hcan) in Hlook.
  injection Hlook as <-. congruence.
Qed.

End Skipped.

Lemma ineligible_transport_is_left_alone_witness :
  let t := descriptor 1 plain_config (Some 0) in
  let g := {| transports := [descriptor 0 plain_config None; t; descriptor 2 plain_config None];
              cursor := 0; trace := [] |} in
  let w := always (Raise not_authorized) in
  transports g !! 1 = Some t /\ can_reconnect t = false /\
  NoDup (idx <$> transports g) /\
  transports (after full_platform w 9 g) !! 1 = Some t /\
  exists new,
    attempts (trace (after full_platform w 9 g)) = attempts (trace g) ++ new /\
    idx t ∉ new.
Proof.
  cbv zeta.
  assert (NoDup (idx <$> [descriptor 0 plain_config None; descriptor 1 plain_config (Some 0);
                          descriptor 2 plain_config None])) as Hnodup.
  { apply (bool_decide_unpack _). by vm_compute. }
  destruct (ineligible_transport_is_left_alone full_platform (always (Raise not_authorized)) 9
              {| transports := [descriptor 0 plain_config None;
                                descriptor 1 plain_config (Some 0);
                                descriptor 2 plain_config None];
                 cursor := 0; trace := [] |}
              1 (descriptor 1 plain_config (Some 0)) eq_refl eq_refl) as [Hkept Hnever].
  split; [reflexivity |]. split; [reflexivity |]. split; [exact Hnodup |].
  split; [exact Hkept | exact (Hnever Hnodup)].
Defined.

(** ** Sleeping before connecting *)

Lemma actions_app (tr1 tr2 : list Event) :
  actions (tr1 ++ tr2) = actions tr1 ++ actions tr2.
Proof. unfold actions. apply omap_app. Qed.

Lemma logs_no_actions (evs : list Event) :
  Forall (fun ev => is_log ev = true) evs -> actions evs = [] /\ attempts evs = [].
Proof.
  induction 1 as [| ev evs Hev _ [IH1 IH2]]; [done |].
  destruct ev; try discriminate Hev; by csimpl.
Qed.

Lemma tls_failure_fold_logs (queue : list (string * string * string))
    (t : Transport) (logs : list Event) :
  Forall (fun ev => is_log ev = true) logs ->
  Forall (fun ev => is_log ev = true) (foldl tls_failure (t, logs) queue).2.
Proof.
  revert t logs. induction queue as [| [[lib fn] reason] queue IH]; intros t logs Hlogs;
    [done |].
  simpl. apply IH. apply Forall_app. split; [done |]. by repeat constructor.
Qed.

Section Sleeping.

Variable P : Platform.
Variable w : World.

Lemma on_exception_logs (pos : nat) (t : Transport) (e : Exn) (g : Engine) :
  exists evs,
    trace (on_exception P pos t e g).2 = trace g ++ evs /\
    Forall (fun ev => is_log ev = true) evs.
Proof.
  assert (exists evs, trace g = trace g ++ evs /\ Forall (fun ev => is_log ev = true) evs)
    as Hnone by (exists []; by rewrite app_nil_r).
  unfold on_exception.
  destruct e; try (destruct (_is_ssl_error P _); simpl; [done |];
                   eexists; split; [done | by repeat constructor]).
  - destruct (bool_decide _); simpl; [| done].
    eexists; split; [done | by repeat constructor].
  - destruct (_is_ssl_error P _); simpl.
    + pose proof (tls_failure_fold_logs queue t [] (Forall_nil_2 _)) as Hlogs.
      destruct (foldl tls_failure (t, []) queue) as [t' logs]. simpl in *.
      by exists logs.
    + eexists; split; [done | by repeat constructor].
Qed.

Lemma loop_body_actions (g : Engine) :
  exists evs,
    trace (loop_body P w g).2 = trace g ++ evs /\
    actions evs = flat_map (fun i => [(false, i); (true, i)]) (attempts evs).
Proof.
  destruct (transports g !! (cursor g mod length (transports g))) as [t |] eqn:Hlook.
  - destruct (can_reconnect t) eqn:Hcan.
    + rewrite (loop_body_eligible P w g t Hlook Hcan).
      assert (trace (attempted g t) =
              trace g ++ [Sleep (idx t) (next_delay t).1; ConnectOnce (idx t)]) as Htr.
      { unfold attempted, emit. simpl. by rewrite <- app_assoc. }
      destruct (_connect_once P w _ t) as [[] | e].
      * exists [Sleep (idx t) (next_delay t).1; ConnectOnce (idx t);
                LogInfo "Component completed successfully"].
        split; [| done]. cbn [snd]. unfold emit. cbn [trace].
        rewrite Htr. by rewrite <- app_assoc.
      * destruct (is_Exception e).
        -- destruct (on_exception_logs (cursor g mod length (transports g))
                       (record_failure (next_delay t).2) e (refused g t))
             as (logs & -> & Hlogs).
           destruct (logs_no_actions logs Hlogs) as [Hact Hatt].
           exists ([Sleep (idx t) (next_delay t).1; ConnectOnce (idx t)] ++ logs).
           split; [by rewrite refused_trace, Htr, <- app_assoc |].
           rewrite actions_app, attempts_app, Hact, Hatt. done.
        -- exists [Sleep (idx t) (next_delay t).1; ConnectOnce (idx t)]. by split.
    + rewrite (loop_body_skipped P w g t Hlook Hcan).
      destruct (negb (_can_reconnect g)).
      * by exists [LogInfo "No remaining transports to try"].
      * exists []. split; [| done]. simpl. by rewrite app_nil_r.
  - rewrite (loop_body_empty P w g Hlook). exists []. split; [| done].
    simpl. by rewrite app_nil_r.
Qed.

Lemma after_actions (fuel : nat) (g : Engine) :
  exists evs,
    trace (after P w fuel g) = trace g ++ evs /\
    actions evs = flat_map (fun i => [(false, i); (true, i)]) (attempts evs).
Proof.
  revert g. induction fuel as [| fuel IH]; intros g.
  - exists []. split; [| done]. rewrite after_0. by rewrite app_nil_r.
  - destruct (loop_body_actions g) as (evs1 & Htr1 & Hact1).
    destruct (loop_body P w g) as [st g1] eqn:Hbody. simpl in Htr1.
    destruct (running_or_done st) as [-> | Hst].
    + rewrite (after_again P w fuel g g1 Hbody).
      destruct (IH g1) as (evs2 & Htr2 & Hact2).
      exists (evs1 ++ evs2). split; [by rewrite Htr2, Htr1, <- app_assoc |].
      by rewrite actions_app, attempts_app, flat_map_app, Hact1, Hact2.
    + rewrite (after_done P w fuel g g1 st Hbody Hst). by exists evs1.
Qed.

(** X14: [start] never connects without having slept first: what
    its trace does on the network is, for each connection attempt in
    turn, one sleep for the transport and then the attempt on it. *)
Theorem sleep_precedes_every_attempt (fuel : nat) (ts : list Transport) :
  let r := start P w fuel ts in
  actions (trace r.2) =
    flat_map (fun i => [(false, i); (true, i)]) (attempts (trace r.2)).
Proof.
  cbv zeta. unfold start.
  destruct (after_actions fuel {| transports := ts; cursor := 0; trace := [] |})
    as (evs & Htr & Hact).
  unfold after in Htr. rewrite Htr. exact Hact.
Qed.

End Sleeping.

(** ** What [_run] accepts *)

Lemma check_items_first_offender (items : list PyObject) :
  (exists cs, items = AComponent <$> cs /\ check_items items = Ret cs) \/
  (exists pre o post,
     items = (AComponent <$> pre) ++ o :: post /\ is_component o = false /\
     check_items items = Raise (must_be_a_list_item (type_of o))).
Proof.
  induction items as [| o items IH].
  - left. by exists [].
  - destruct o as [c | items' | type_name].
    + destruct IH as [(cs & -> & Hcs) | (pre & o & post & -> & Ho & Hraise)].
      * left. exists (c :: cs). split; [done |]. simpl. by rewrite Hcs.
      * right. exists (c :: pre), o, post. split; [done |]. split; [done |].
        simpl. by rewrite Hraise.
    + right. by exists [], (AList items'), items.
    + right. by exists [], (AnObject type_name), items.
Qed.

(** X15: [_run] accepts exactly a [Component] and a list of
    [Component]s.  For those it raises nothing and has called [start]
    on every component once, in the order of the list; for everything
    else it raises a [ValueError] and has started nothing. *)
Theorem run_accepts_exactly_components (start_of : Component -> Deferred)
    (components : PyObject) :
  (exists cs,
     ((exists c, components = AComponent c /\ cs = [c]) \/
      components = AList (AComponent <$> cs)) /\
     (_run start_of components).1 = Ret tt /\
     started (_run start_of components).2 = cs) \/
  ((forall c, components <> AComponent c) /\
   (forall cs, components <> AList (AComponent <$> cs)) /\
   exists msg, _run start_of components = (Raise (ValueError msg), idle)).
Proof.
  destruct components as [c | items | type_name].
  - left. exists [c]. split; [left; by exists c |].
    destruct (run_settled start_of [c]) as (Hret & _ & Hstarted & _). by split.
  - destruct (check_items_first_offender items)
      as [(cs & -> & Hcs) | (pre & o & post & -> & Ho & Hraise)].
    + left. exists cs. split; [by right |].
      destruct (run_settled start_of cs) as (Hret & _ & Hstarted & _). by split.
    + right. split; [done |]. split.
      * intros cs [= Heq].
        assert (Forall (fun x => is_component x = true) (AComponent <$> cs)) as Hall
          by (apply Forall_fmap, Forall_forall; by intros).
        rewrite <- Heq in Hall. apply Forall_app in Hall as [_ Hall].
        inversion Hall as [| ? ? Ho' _]; subst. congruence.
      * assert (check_components (AList ((AComponent <$> pre) ++ o :: post))
                = Raise (must_be_a_list_item (type_of o))) as Hcheck by exact Hraise.
        unfold _run. rewrite Hcheck. by eexists.
  - right. split; [done |]. split; [done |]. by eexists.
Qed.

(** X16: in a list, the [ValueError] of [_run] names the type of the
    first item that is not a [Component]; items after it are not
    looked at, and no component before it has been started. *)
Theorem run_reports_first_offender (start_of : Component -> Deferred)
    (pre : list Component) (o : PyObject) (post : list PyObject) :
  is_component o = false ->
  _run start_of (AList ((AComponent <$> pre) ++ o :: post))
    = (Raise (must_be_a_list_item (type_of o)), idle).
Proof.
  intros Ho.
  assert (check_components (AList ((AComponent <$> pre) ++ o :: post))
          = Raise (must_be_a_list_item (type_of o))) as Hcheck.
  { unfold check_components. induction pre as [| c pre IH].
    - by destruct o.
    - rewrite fmap_cons.
      change (check_items (AComponent c :: ((AComponent <$> pre) ++ o :: post))
              = Raise (must_be_a_list_item (type_of o))).
      cbn [check_items]. by rewrite IH. }
  unfold _run. by rewrite Hcheck.
Qed.

Lemma run_reports_first_offender_witness :
  let c := {| component_name := "backend"; _transports := [] |} in
  is_component (AList []) = false /\
  _run (fun _ => Pending) (AList ((AComponent <$> [c; c]) ++ AList [] :: [AnObject "int"]))
    = (Raise (must_be_a_list_item "list"), idle).
Proof.
  cbv zeta. split; [reflexivity |].
  exact (run_reports_first_offender (fun _ => Pending)
           [{| component_name := "backend"; _transports := [] |};
            {| component_name := "backend"; _transports := [] |}]
           (AList []) [AnObject "int"] eq_refl).
Defined.

(** ** The supervisor and the order of events *)

Lemma settled_slot_by_fired (d d' : Deferred) :
  (d = Pending \/ d = Fired (Ret tt)) -> (d' = Pending \/ d' = Fired (Ret tt)) ->
  has_fired d = has_fired d' -> d = d'.
Proof. intros [-> | ->] [-> | ->]; done. Qed.

(** X17: the state [_run] ends in does not depend on the order in
    which the components settle: for two sequences of the same settle
    events, the slots of [dl], the Deferred that [_run] returned and
    the number of calls of [reactor.stop()] are the same. *)
Theorem supervisor_ignores_order (start_of : Component -> Deferred)
    (cs : list Component) (evs evs' : list (nat * Res unit)) :
  evs ≡ₚ evs' ->
  let s0 := (_run start_of (AList (AComponent <$> cs))).2 in
  dl (foldl settle s0 evs) = dl (foldl settle s0 evs') /\
  d_all_done (foldl settle s0 evs) = d_all_done (foldl settle s0 evs') /\
  reactor_stops (foldl settle s0 evs) = reactor_stops (foldl settle s0 evs') /\
  started (foldl settle s0 evs) = started (foldl settle s0 evs').
Proof.
  intros Hperm. cbv zeta.
  destruct (run_settled start_of cs) as (_ & Hs0 & _ & _).
  destruct (settle_all_settled evs _ Hs0) as ((Hlen & Hok & Hdone & Hstops) & Hstarted & Hdl).
  destruct (settle_all_settled evs' _ Hs0)
    as ((Hlen' & Hok' & Hdone' & Hstops') & Hstarted' & Hdl').
  assert (dl (foldl settle (_run start_of (AList (AComponent <$> cs))).2 evs)
          = dl (foldl settle (_run start_of (AList (AComponent <$> cs))).2 evs')) as Heq.
  { apply list_eq. intros i.
    destruct (dl (_run start_of (AList (AComponent <$> cs))).2 !! i) as [d |] eqn:Hi.
    - destruct (Hdl i d Hi) as (d1 & Hd1 & Hfired1).
      destruct (Hdl' i d Hi) as (d2 & Hd2 & Hfired2).
      rewrite Hd1, Hd2. f_equal.
      rewrite Forall_forall in Hok, Hok'.
      apply settled_slot_by_fired.
      + apply Hok. by eapply list_elem_of_lookup_2.
      + apply Hok'. by eapply list_elem_of_lookup_2.
      + rewrite Hfired1, Hfired2. f_equal. apply bool_decide_ext. by rewrite Hperm.
    - apply lookup_ge_None in Hi.
      destruct Hs0 as (Hlen0 & _).
      rewrite !(proj2 (lookup_ge_None _ _)); [done | |].
      + rewrite Hlen', Hstarted', <- Hlen0. exact Hi.
      + rewrite Hlen, Hstarted, <- Hlen0. exact Hi. }
  split; [exact Heq |]. split; [| split].
  - by rewrite Hdone, Hdone', Heq.
  - by rewrite Hstops, Hstops', Heq.
  - by rewrite Hstarted, Hstarted'.
Qed.

Lemma supervisor_ignores_order_witness :
  let c := fun name => {| component_name := name; _transports := [] |} in
  let cs := [c "a"; c "b"; c "c"] in
  let evs := [(2, Raise no_such_realm); (0, Ret tt); (1, Ret tt)] in
  let evs' := [(1, Ret tt); (2, Raise no_such_realm); (0, Ret tt)] in
  let s0 := (_run (fun _ => Pending) (AList (AComponent <$> cs))).2 in
  evs ≡ₚ evs' /\
  dl (foldl settle s0 evs) = dl (foldl settle s0 evs') /\
  reactor_stops (foldl settle s0 evs) = reactor_stops (foldl settle s0 evs').
Proof.
  cbv zeta.
  set (c := fun name => {| component_name := name; _transports := [] |}).
  assert ([(2, Raise no_such_realm); (0, Ret tt); (1, Ret tt)]
            ≡ₚ [(1, Ret tt); (2, Raise no_such_realm); (0, Ret tt)]) as Hperm.
  { etrans; [apply Permutation_swap |].
    etrans; [apply Permutation_skip, Permutation_swap |].
    etrans; [apply Permutation_swap |].
    apply Permutation_skip, Permutation_swap. }
  split; [exact Hperm |].
  destruct (supervisor_ignores_order (fun _ => Pending) [c "a"; c "b"; c "c"] _ _ Hperm)
    as (Hdl & _ & Hstops & _).
  split; [exact Hdl | exact Hstops].
Defined.

(** ** The state [_run] returns in *)

Lemma forallb_fired_slots (start_of : Component -> Deferred) (cs : list Component) :
  forallb has_fired ((fun c => slot c (start_of c)) <$> cs)
  = forallb (fun c => has_fired (start_of c)) cs.
Proof.
  induction cs as [| c cs IH]; [done |].
  csimpl. by rewrite has_fired_slot, IH.
Qed.

(** X18: when every [start] has already settled at the moment [_run]
    gets its Deferred back, and so for an empty list of components,
    [_run] itself fires the Deferred it returns and calls
    [reactor.stop()] before it returns; when one of them is still
    pending, it does neither. *)
Theorem run_stops_at_once_when_all_settled (start_of : Component -> Deferred)
    (cs : list Component) :
  let s := (_run start_of (AList (AComponent <$> cs))).2 in
  reactor_stops s = (if forallb (fun c => has_fired (start_of c)) cs then 1 else 0) /\
  d_all_done s =
    (if forallb (fun c => has_fired (start_of c)) cs then Fired (Ret tt) else Pending).
Proof.
  cbv zeta.
  destruct (run_settled start_of cs) as (_ & (_ & _ & Hdone & Hstops) & _ & Hdl).
  rewrite Hdl, forallb_fired_slots in Hdone, Hstops. by split.
Qed.

Lemma fire_when_complete_log (s : RunState) : log (fire_when_complete s) = log s.
Proof.
  unfold fire_when_complete.
  destruct (d_all_done s); [| done].
  destruct (results (dl s)) as [res |]; [| done].
  by destruct (completed res).
Qed.

Lemma start_components_log (start_of : Component -> Deferred) (cs : list Component)
    (s : RunState) :
  log (foldl start_component s ((fun c => (c, start_of c)) <$> cs)) =
    log s ++
    replicate (length (filter (fun c => has_failed (start_of c) = true) cs))
              (LogError "Component error").
Proof.
  revert s. induction cs as [| c cs IH]; intros s.
  - simpl. by rewrite app_nil_r.
  - rewrite fmap_cons. cbn [foldl]. rewrite IH. rewrite filter_cons.
    unfold start_component, component_callbacks, add_callbacks.
    destruct (start_of c) as [| [[] | f]]; simpl.
    + done.
    + by rewrite app_nil_r.
    + by rewrite <- app_assoc.
Qed.

Lemma error_entries_replicate (n : nat) (msg : string) :
  error_entries (replicate n (LogError msg)) = replicate n (LogError msg).
Proof. induction n as [| n IH]; [done |]. csimpl. by rewrite IH. Qed.

(** X19: among the entries that [_run] has logged at error level when
    it returns there is exactly one [Component error] for each
    component whose [start] had already failed, and no other; and a
    [start] that later settles with a success adds no entry at error
    level. *)
Theorem run_logs_each_failure_once (start_of : Component -> Deferred)
    (cs : list Component) :
  error_entries (log (_run start_of (AList (AComponent <$> cs))).2) =
    replicate (length (filter (fun c => has_failed (start_of c) = true) cs))
              (LogError "Component error") /\
  (forall s i, error_entries (log (settle s (i, Ret tt))) = error_entries (log s)).
Proof.
  split.
  - unfold _run. rewrite check_components_list. cbn [snd].
    rewrite fire_when_complete_log, start_components_log.
    apply error_entries_replicate.
  - intros s i. f_equal. unfold settle.
    destruct (dl s !! i) as [[| r] |]; try done.
    destruct (started s !! i) as [c |]; [| done].
    simpl. rewrite fire_when_complete_log. simpl. by rewrite app_nil_r.
Qed.

(** ** Configurations refused at construction *)

Lemma check_transports_all (P : Platform) (configs : list TransportConfig) :
  check_transports P configs = Ret tt ->
  Forall (fun transport_config => check_transport P transport_config = Ret tt) configs.
Proof.
  induction configs as [| cfg configs IH]; intros Hok; [constructor |].
  simpl in Hok. destruct (check_transport P cfg) as [[] | e] eqn:Hcfg; [| discriminate Hok].
  constructor; [done | by apply IH].
Qed.

Lemma check_transports_refuses (P : Platform) (configs : list TransportConfig)
    (transport_config : TransportConfig) :
  transport_config ∈ configs ->
  (exists e, check_transport P transport_config = Raise e) ->
  exists e, check_transports P configs = Raise e.
Proof.
  induction configs as [| cfg configs IH]; intros Hin Hbad.
  - by apply elem_of_nil in Hin.
  - simpl. destruct (check_transport P cfg) as [[] | e] eqn:Hcfg; [| by eexists].
    apply elem_of_cons in Hin as [-> | Hin].
    + destruct Hbad as [e He]. congruence.
    + by apply IH.
Qed.

Lemma malformed_is_refused (P : Platform) (transport_config : TransportConfig) :
  malformed transport_config -> exists e, check_transport P transport_config = Raise e.
Proof.
  unfold check_transport.
  intros [[Hws Hrs] | (d & Hep & Hbad)].
  - rewrite !bool_decide_eq_false_2 by done. by eexists.
  - destruct (_ || _); [| by eexists].
    rewrite Hep. unfold check_endpoint.
    destruct (_check_native_endpoint P (EpDict d)) as [[] | e]; [| by eexists].
    cbn [mbind Res_bind].
    destruct Hbad as [[Htcp Hunix] | (Htcp & Hv6 & Htls)].
    + rewrite !bool_decide_eq_false_2 by done. by eexists.
    + rewrite Htcp, Hv6, Htls. by eexists.
Qed.

Lemma checked_endpoint_connects (P : Platform) (endpoint_config : EndpointConfig) (e : Exn) :
  check_endpoint P endpoint_config = Ret tt ->
  _create_transport_endpoint P endpoint_config = Raise e ->
  e <> tls_on_ipv6 /\
  (e = should_not_arrive_here ->
   exists d, endpoint_config = EpDict d /\ ep_type d = Some "tcp" /\
             default 4%Z (ep_version d) <> 4%Z /\ default 4%Z (ep_version d) <> 6%Z).
Proof.
  unfold check_endpoint. intros Hcheck Hraise.
  destruct endpoint_config as [name | d | type_name]; [discriminate Hraise | | discriminate Hcheck].
  destruct (_check_native_endpoint P (EpDict d)) as [[] | e']; [| discriminate Hcheck].
  cbn [mbind Res_bind] in Hcheck.
  unfold _create_transport_endpoint, tls_context, getitem, tls_requested in *.
  destruct (bool_decide (ep_type d = Some "tcp")) eqn:Htcp.
  - apply bool_decide_eq_true in Htcp. rewrite Htcp in Hraise.
    cbn [mbind Res_bind] in Hraise.
    rewrite (bool_decide_eq_true_2 ("tcp" = "tcp")) in Hraise by done.
    destruct (ep_host d) as [host |]; [| by simplify_eq/=].
    destruct (ep_port d) as [port |]; [| by simplify_eq/=].
    cbn [mbind Res_bind] in Hraise.
    destruct (bool_decide (default 4%Z (ep_version d) = 4%Z)) eqn:Hv4;
      destruct (bool_decide (default 4%Z (ep_version d) = 6%Z)) eqn:Hv6;
      destruct (truthy (default TlsNone (ep_tls d))) eqn:Htls;
      try discriminate Hcheck;
      try (apply bool_decide_eq_false in Hv4); try (apply bool_decide_eq_false in Hv6);
      destruct (_TLS P); destruct (has_TCP6ClientEndpoint P);
      destruct (default TlsNone (ep_tls d)) as [| [] | | | |];
      simplify_eq/=; (split; [done |]); try done;
      intros _; by exists d.
  - destruct (bool_decide (ep_type d = Some "unix")) eqn:Hunix; [| discriminate Hcheck].
    apply bool_decide_eq_true in Hunix. rewrite Hunix in Hraise.
    cbn [mbind Res_bind] in Hraise.
    rewrite (bool_decide_eq_false_2 ("unix" = "tcp")) in Hraise by done.
    rewrite (bool_decide_eq_true_2 ("unix" = "unix")) in Hraise by done.
    destruct (ep_path d); by simplify_eq/=.
Qed.

Lemma checked_transport_connects (P : Platform) (transport_config : TransportConfig)
    (e : Exn) :
  check_transport P transport_config = Ret tt ->
  _connect_transport P transport_config = Raise e ->
  e <> tls_on_ipv6 /\
  (e = should_not_arrive_here ->
   exists d, tc_endpoint transport_config = Some (EpDict d) /\ ep_type d = Some "tcp" /\
             default 4%Z (ep_version d) <> 4%Z /\ default 4%Z (ep_version d) <> 6%Z).
Proof.
  unfold check_transport, _connect_transport. intros Hcheck Hraise.
  destruct (_create_transport_factory P transport_config) as [factory | e'] eqn:Hfactory.
  - cbn [mbind Res_bind] in Hraise.
    destruct (tc_endpoint transport_config) as [endpoint_config |];
      [| by simplify_eq/=].
    cbn [getitem mbind Res_bind] in Hraise.
    destruct (_create_transport_endpoint P endpoint_config) as [endpoint | e'] eqn:Hendpoint;
      [discriminate Hraise |].
    cbn in Hraise. injection Hraise as <-.
    destruct (_ || _); [| discriminate Hcheck].
    destruct (checked_endpoint_connects P endpoint_config e' Hcheck Hendpoint)
      as [Hne Hassert].
    split; [done |]. intros He. destruct (Hassert He) as (d & -> & ?). by exists d.
  - cbn in Hraise. injection Hraise as <-.
    unfold _create_transport_factory, getitem in Hfactory.
    destruct (tc_type transport_config) as [ty |]; [| discriminate Hcheck].
    cbn [mbind Res_bind] in Hfactory.
    destruct (bool_decide (ty = "websocket")) eqn:Hws.
    + destruct (_create_transport_serializers P transport_config) as [l | e''] eqn:Hser.
      * destruct (tc_url transport_config); by simplify_eq/=.
      * apply create_transport_serializers_error in Hser as (bad & -> & _).
        by simplify_eq/=.
    + destruct (bool_decide (ty = "rawsocket")) eqn:Hrs.
      * destruct (_create_transport_serializer P _) as [ser | e''] eqn:Hser;
          [discriminate Hfactory |].
        apply create_transport_serializer_error in Hser as ->. by simplify_eq/=.
      * exfalso. apply bool_decide_eq_false in Hws, Hrs.
        rewrite !bool_decide_eq_false_2 in Hcheck by congruence. discriminate Hcheck.
Qed.

(** C8: a configuration with an unknown transport type, an unknown
    endpoint type or a TCP endpoint that combines IPv6 with TLS makes
    the construction of the [Component] fail, so that no connection
    attempt is ever made for it; and nothing of this is left to connect
    time: for a transport of a constructed [Component],
    [_connect_transport] never raises [TLS on IPv6 not implemented],
    and it fails its assertion only for an IP version other than 4
    and 6. *)
Theorem malformed_configuration_is_refused_at_construction (P : Platform) (name : string)
    (configs : list TransportConfig) (retries : option nat) :
  (forall transport_config,
     transport_config ∈ configs -> malformed transport_config ->
     exists e, Component_init P name configs retries = Raise e) /\
  (forall c t,
     Component_init P name configs retries = Ret c -> t ∈ _transports c ->
     config t ∈ configs /\ ~ malformed (config t) /\
     forall e, _connect_transport P (config t) = Raise e ->
       e <> tls_on_ipv6 /\
       (e = should_not_arrive_here ->
        exists d, tc_endpoint (config t) = Some (EpDict d) /\ ep_type d = Some "tcp" /\
                  default 4%Z (ep_version d) <> 4%Z /\
                  default 4%Z (ep_version d) <> 6%Z)).
Proof.
  unfold Component_init. split.
  - intros cfg Hin Hbad.
    destruct (check_transports_refuses P configs cfg Hin (malformed_is_refused P cfg Hbad))
      as [e ->].
    by eexists.
  - intros c t Hinit Ht.
    destruct (check_transports P configs) as [[] | e] eqn:Hchecks; [| discriminate Hinit].
    cbn in Hinit. injection Hinit as <-. cbn [_transports] in Ht.
    apply list_elem_of_lookup_1 in Ht as [i Hi].
    rewrite list_lookup_imap in Hi.
    destruct (configs !! i) as [cfg |] eqn:Hcfg; [| discriminate Hi].
    injection Hi as <-. cbn [config descriptor].
    pose proof (check_transports_all P configs Hchecks) as Hall.
    rewrite Forall_forall in Hall.
    assert (cfg ∈ configs) as Hin by (by eapply list_elem_of_lookup_2).
    specialize (Hall cfg Hin).
    split; [done |]. split.
    + intros [e He]%(malformed_is_refused P). congruence.
    + intros e. by apply checked_transport_connects.
Qed.

Lemma malformed_configuration_is_refused_at_construction_witness :
  let configs := [plain_config; tls_over_ipv6] in
  tls_over_ipv6 ∈ configs /\ malformed tls_over_ipv6 /\
  (exists e, Component_init full_platform "backend" configs None = Raise e) /\
  Component_init full_platform "backend" [plain_config] None
    = Ret {| component_name := "backend";
             _transports := [descriptor 0 plain_config None] |}.
Proof.
  cbv zeta.
  assert (tls_over_ipv6 ∈ [plain_config; tls_over_ipv6]) as Hin
    by (apply list_elem_of_further, list_elem_of_here).
  assert (malformed tls_over_ipv6) as Hbad.
  { right. eexists. split; [reflexivity |]. right. by repeat split. }
  split; [exact Hin |]. split; [exact Hbad |]. split; [| reflexivity].
  exact (proj1 (malformed_configuration_is_refused_at_construction full_platform "backend"
                  [plain_config; tls_over_ipv6] None) tls_over_ipv6 Hin Hbad).
Defined.
